(** * google_ads_reports/retry.py: the retry decorator and its error classifier

    A shallow embedding of [retry_on_api_error] (the decorator, its
    [decorator] and [wrapper] closures) and of [_is_retryable_error].

    Modelling choices, all read off the Python source:
    - Python [str] values are [string]s of 8-bit characters (the code
      points below 256); [str.upper] and [str.lower] act on the ASCII
      letters and leave the other characters alone.  Beyond ASCII the
      builtin follows the Unicode tables; module [Unicode] has the
      classifier on code points for an excerpt of them.
    - Python [float] values are rationals ([Q]) and [*], [+] on them are
      exact: rounding is not modelled, so a statement is made about the
      values the code computes only where rounding cannot change it.
      What does change the control flow is modelled: [**] raises
      [OverflowError] when the power leaves the range of binary64
      ([py_pow]), and [time.sleep] refuses a negative or too long delay
      ([sleep_refusal]).
    - An object with optional attributes ([hasattr]) is a record of
      [option]s; reading an absent attribute raises [AttributeError].
    - The decorated callable, [random.random], [time.sleep] and [logging]
      are the wrapper's collaborators.  The callable and the random source
      are scripts held in the [World] (what the next invocation returns or
      raises, what the next draw yields); every invocation, sleep and log
      record is written, in order, to the list of events a run returns;
      a sleep is written when [time.sleep] has returned.  A log record
      keeps the values handed to the f-string, not the text made of them.
    - The class [APIError] lives in [exceptions.py], which is not among the
      sources; its record follows the calls of lines 50-54 and 81-85. *)

From Stdlib Require Import List String Ascii Bool ZArith NArith QArith Qpower
  Qminmax Qabs Lia Lqa.
Import ListNotations.

Local Open Scope string_scope.

(** ** Python strings *)

Module PyStr.

(** [c.upper()] for one character: the letters a..z move to A..Z. *)
Definition upper_ascii (c : ascii) : ascii :=
  let n := N_of_ascii c in
  if ((97 <=? n) && (n <=? 122))%N then ascii_of_N (n - 32) else c.

(** [c.lower()] for one character: the letters A..Z move to a..z. *)
Definition lower_ascii (c : ascii) : ascii :=
  let n := N_of_ascii c in
  if ((65 <=? n) && (n <=? 90))%N then ascii_of_N (n + 32) else c.

(** [s.upper()], on the letters of ASCII *)
Fixpoint upper (s : string) : string :=
  match s with
  | EmptyString => EmptyString
  | String c s' => String (upper_ascii c) (upper s')
  end.

(** [s.lower()], on the letters of ASCII *)
Fixpoint lower (s : string) : string :=
  match s with
  | EmptyString => EmptyString
  | String c s' => String (lower_ascii c) (lower s')
  end.

(** [hay.startswith(needle)] *)
Fixpoint startswith (needle hay : string) : bool :=
  match needle, hay with
  | EmptyString, _ => true
  | String _ _, EmptyString => false
  | String a n', String b h' => Ascii.eqb a b && startswith n' h'
  end.

(** [needle in hay] on two strings: [needle] occurs at some offset. *)
Fixpoint contains (needle hay : string) : bool :=
  startswith needle hay
  || match hay with
     | EmptyString => false
     | String _ h' => contains needle h'
     end.

(** [any(p(x) for x in xs)] *)
Definition any {A : Type} (p : A -> bool) (xs : list A) : bool := existsb p xs.

(** [s.isascii()]: every character is below 128. *)
Fixpoint isascii (s : string) : bool :=
  match s with
  | EmptyString => true
  | String c s' => (N_of_ascii c <? 128)%N && isascii s'
  end.

End PyStr.

(** ** Exceptions and results *)

(** The gRPC error held in [GoogleAdsException.error]; [error_code] is the
    [str()] of the attribute of that name, [None] when the object has no
    such attribute. *)
Record RpcError : Type := mkRpcError {
  error_code : option string
}.

(** A [GoogleAdsException] as far as this module looks at it: the [error]
    attribute ([None] when [hasattr(e, 'error')] is false) and [str(e)]. *)
Record GoogleAdsException : Type := mkGoogleAdsException {
  error : option RpcError;
  exc_str : string
}.

(** The keyword arguments [wrapper] passes to [APIError] besides
    [original_error]: [attempt=...] (line 53) or [max_attempts=...]
    (line 84). *)
Inductive APIError_context : Type :=
| kw_attempt (n : Z)
| kw_max_attempts (n : Z).

(** Modelled from the spec: the class [APIError] of
    [google_ads_reports/exceptions.py] is not part of the sources at hand;
    it is the spec's NormalizedFailure.  The record keeps what [wrapper]
    hands to the constructor (the message, [original_error], the keyword
    context) and the [__cause__] set by [raise ... from ...]. *)
Record APIError : Type := mkAPIError {
  message : string;
  original_error : option GoogleAdsException;
  context : APIError_context;
  cause : option GoogleAdsException
}.

(** Modelled from the spec: the reason tag of a NormalizedFailure. *)
Inductive reason_tag : Type := non_retryable | exhausted.

(** Modelled from the spec: the reason tag of an [APIError]; the error
    raised at line 50 carries [attempt], the one raised at line 81 carries
    [max_attempts]. *)
Definition reason (a : APIError) : reason_tag :=
  match context a with
  | kw_attempt _ => non_retryable
  | kw_max_attempts _ => exhausted
  end.

(** Modelled from the spec: the attempt count of a NormalizedFailure, the
    number given with the keyword context. *)
Definition attempt_count (a : APIError) : Z :=
  match context a with
  | kw_attempt n => n
  | kw_max_attempts n => n
  end.

(** Any exception that is neither a [GoogleAdsException] nor raised by this
    module; [is_Exception] tells a subclass of [Exception] from a bare
    [BaseException] (KeyboardInterrupt, SystemExit). *)
Record Unexpected : Type := mkUnexpected {
  is_Exception : bool;
  what : string
}.

Inductive exn : Type :=
| ExGoogleAds (e : GoogleAdsException)
| ExAPIError (a : APIError)
| ExAttributeError (attr : string)
| ExOverflowError
| ExValueError
| ExOther (x : Unexpected).

(** The outcome of evaluating an expression: a value or a raised
    exception. *)
Inductive res (A : Type) : Type :=
| Val (a : A)
| Exc (x : exn).

Arguments Val {A} a.
Arguments Exc {A} x.

(** ** The error monad of side-effect free code *)

Module Pure.

Definition ret {A : Type} (a : A) : res A := Val a.

Definition bind {A B : Type} (m : res A) (k : A -> res B) : res B :=
  match m with
  | Val a => k a
  | Exc x => Exc x
  end.

(** [obj.error] *)
Definition get_error (e : GoogleAdsException) : res RpcError :=
  match error e with
  | Some r => Val r
  | None => Exc (ExAttributeError "error")
  end.

(** [obj.error_code] *)
Definition get_error_code (r : RpcError) : res string :=
  match error_code r with
  | Some c => Val c
  | None => Exc (ExAttributeError "error_code")
  end.

(** [hasattr(obj, name)]: reading the attribute does not raise
    [AttributeError]. *)
Definition hasattr {A : Type} (read : res A) : bool :=
  match read with
  | Val _ => true
  | Exc _ => false
  end.

End Pure.

Declare Scope pure_scope.
Delimit Scope pure_scope with pure.
Notation "x <- m ;; k" := (Pure.bind m (fun x => k))
  (at level 61, m at next level, right associativity) : pure_scope.

(** ** The classifier *)

(** lines 102-108 *)
Definition retryable_error_codes : list string :=
  [ "INTERNAL_ERROR"; "QUOTA_ERROR"; "RATE_EXCEEDED";
    "CONCURRENT_MODIFICATION"; "PARTIAL_FAILURE_ERROR" ].

(** lines 110-117 *)
Definition retryable_messages : list string :=
  [ "internal error"; "rate exceeded"; "quota exceeded"; "timeout";
    "temporary failure"; "service unavailable" ].

(** lines 91-130.  The condition of line 120 is a short-circuit [and]:
    [error.error] is read for the second [hasattr] only when the first one
    holds. *)
Definition _is_retryable_error (err : GoogleAdsException) : res bool :=
  (guard <- (if Pure.hasattr (Pure.get_error err)
             then (r <- Pure.get_error err ;;
                   Pure.ret (Pure.hasattr (Pure.get_error_code r)))
             else Pure.ret false) ;;
   by_code <- (if guard : bool
               then (r <- Pure.get_error err ;;
                     c <- Pure.get_error_code r ;;
                     let error_code := c in
                     Pure.ret (PyStr.any
                                 (fun code => PyStr.contains code (PyStr.upper error_code))
                                 retryable_error_codes))
               else Pure.ret false) ;;
   if by_code : bool then Pure.ret true
   else
     let error_message := PyStr.lower (exc_str err) in
     if PyStr.any (fun msg => PyStr.contains msg error_message) retryable_messages
     then Pure.ret true
     else Pure.ret false)%pure.

(** ** Numbers *)

Local Open Scope Q_scope.

(** [a < b] on two floats *)
Definition py_lt (a b : Q) : bool :=
  match a ?= b with
  | Lt => true
  | _ => false
  end.

(** The builtin [min(a, b)]: [b] when [b < a], else [a]. *)
Definition py_min (a b : Q) : Q := if py_lt b a then b else a.

(** The least magnitude that binary64 rounds to infinity: half an ulp
    above the largest finite number, [2^1024 - 2^970]. *)
Definition float_overflow : Q := inject_Z (2 ^ 1024 - 2 ^ 970).

(** [x ** n] for a float [x] and an [int] [n >= 0]: [OverflowError]
    ("Numerical result out of range") when the power is out of range. *)
Definition py_pow (x : Q) (n : Z) : res Q :=
  if Qle_bool float_overflow (Qabs (x ^ n))
  then Exc ExOverflowError
  else Val (x ^ n).

(** The least positive normal number of binary64, [2^-1022]. *)
Definition smallest_normal : Q := 1 # (2 ^ 1022).

(** The longest delay [time.sleep] takes: the seconds that fit a signed
    64-bit count of nanoseconds. *)
Definition sleep_limit : Q := 9223372036854775807 # 1000000000.

(** What [time.sleep(delay)] raises instead of sleeping: [ValueError] for
    a negative delay, [OverflowError] for one beyond [sleep_limit]. *)
Definition sleep_refusal (delay : Q) : option exn :=
  if py_lt delay 0 then Some ExValueError
  else if py_lt sleep_limit delay then Some ExOverflowError
  else None.

(** [range(n)]: the integers 0, 1, ..., n-1; empty when [n <= 0]. *)
Definition range (n : Z) : list Z := map Z.of_nat (seq 0 (Z.to_nat n)).

(** ** The decorator's parameters *)

(** The five parameters of [retry_on_api_error] (lines 15-21), which the
    closures [decorator] and [wrapper] capture. *)
Record RetryConfig : Type := mkRetryConfig {
  max_attempts : Z;
  base_delay : Q;
  max_delay : Q;
  backoff_factor : Q;
  jitter : bool
}.

(** The default values of the parameters. *)
Definition default_config : RetryConfig :=
  {| max_attempts := 3; base_delay := 1; max_delay := 30;
     backoff_factor := 2; jitter := true |}.

(** line 61: [min(base_delay * (backoff_factor ** attempt), max_delay)],
    the value it has when the power is within range. *)
Definition backoff_delay (c : RetryConfig) (attempt : Z) : Q :=
  py_min (base_delay c * backoff_factor c ^ attempt) (max_delay c).

(** line 61 as the expression is evaluated: the power first, which can
    raise; then the product and the cap. *)
Definition delay_for (c : RetryConfig) (attempt : Z) : res Q :=
  (power <- py_pow (backoff_factor c) attempt ;;
   Pure.ret (py_min (base_delay c * power) (max_delay c)))%pure.

(** line 65: [delay * (0.5 + r * 0.5)] where [r] is [random.random()],
    in exact arithmetic.  In binary64 the factor is rounded and can be
    1.0 itself, so bounds that hold with the factor in [[0.5, 1.0]] are
    the ones stated about the code. *)
Definition with_jitter (delay r : Q) : Q := delay * ((1 # 2) + r * (1 # 2)).

(** ** Effects: the world, events and the monad of [wrapper] *)

(** The records handed to [logging]: the values that the f-strings of the
    messages take, before they are formatted. *)
Inductive log_record : Type :=
| LogNonRetryable (e : GoogleAdsException)                    (* line 49 *)
| LogRetrying (attempt_no total : Z) (e : GoogleAdsException) (delay : Q)
                                                              (* line 67 *)
| LogUnexpected (x : exn)                                     (* line 76 *)
| LogAllFailed (total : Z).                                   (* line 80 *)

Inductive event : Type :=
| Invoked                       (* [func(...)] was called *)
| Slept (delay : Q)             (* [time.sleep(delay)] has returned *)
| Warned (l : log_record)       (* [logging.warning] *)
| Errored (l : log_record).     (* [logging.error] *)

Section Wrapper.

(** The type of the values the decorated function returns. *)
Variable T : Type.

(** What the collaborators will do: [script n] is the outcome of the
    [n]-th invocation of the decorated function from now on, [entropy n]
    the 53 random bits behind the [n]-th draw of [random.random]. *)
Record World : Type := mkWorld {
  script : nat -> res T;
  entropy : nat -> Z
}.

Definition M (A : Type) : Type := World -> res A * World * list event.

Definition ret {A : Type} (a : A) : M A := fun w => (Val a, w, []).

Definition bind {A B : Type} (m : M A) (k : A -> M B) : M B :=
  fun w =>
    match m w with
    | (Val a, w1, t1) =>
        match k a w1 with
        | (r, w2, t2) => (r, w2, (t1 ++ t2)%list)
        end
    | (Exc x, w1, t1) => (Exc x, w1, t1)
    end.

(** [raise x] *)
Definition raise {A : Type} (x : exn) : M A := fun w => (Exc x, w, []).

(** Running [m] inside a [try]: the outcome is handed to the handlers. *)
Definition try {A : Type} (m : M A) : M (res A) :=
  fun w => match m w with (r, w1, t1) => (Val r, w1, t1) end.

(** A side-effect free computation inside [wrapper]. *)
Definition lift {A : Type} (r : res A) : M A := fun w => (r, w, []).

(** The world once the decorated function has been invoked. *)
Definition after_call (w : World) : World :=
  {| script := fun n => script w (S n); entropy := entropy w |}.

(** The world once [random.random] has been called. *)
Definition after_draw (w : World) : World :=
  {| script := script w; entropy := fun n => entropy w (S n) |}.

(** The next value of [random.random()]: a multiple of 2^-53 in
    [0.0, 1.0). *)
Definition next_random (w : World) : Q :=
  Qmake (entropy w 0%nat mod 2 ^ 53) (2 ^ 53).

(** [func(...)]: the next outcome of the script. *)
Definition call_func : M T :=
  fun w => (script w 0%nat, after_call w, [Invoked]).

(** [random.random()] *)
Definition random_random : M Q :=
  fun w => (Val (next_random w), after_draw w, []).

(** [time.sleep(delay)] *)
Definition time_sleep (delay : Q) : M unit :=
  fun w =>
    match sleep_refusal delay with
    | Some x => (Exc x, w, [])
    | None => (Val tt, w, [Slept delay])
    end.

(** [logging.warning(...)] *)
Definition logging_warning (l : log_record) : M unit :=
  fun w => (Val tt, w, [Warned l]).

(** [logging.error(...)] *)
Definition logging_error (l : log_record) : M unit :=
  fun w => (Val tt, w, [Errored l]).

End Wrapper.

Arguments script {T} w n.
Arguments entropy {T} w n.
Arguments mkWorld {T} script entropy.
Arguments ret {T A} a w.
Arguments bind {T A B} m k w.
Arguments raise {T A} x w.
Arguments try {T A} m w.
Arguments lift {T A} r w.
Arguments after_call {T} w.
Arguments after_draw {T} w.
Arguments next_random {T} w.
Arguments call_func {T} w.
Arguments random_random {T} w.
Arguments time_sleep {T} delay w.
Arguments logging_warning {T} l w.
Arguments logging_error {T} l w.

Declare Scope py_scope.
Delimit Scope py_scope with py.
Notation "x <- m ;; k" := (bind m (fun x => k))
  (at level 61, m at next level, right associativity) : py_scope.
Notation "m ;; k" := (bind m (fun _ => k))
  (at level 61, right associativity) : py_scope.

(** ** The wrapper *)

(** How the [for] loop of lines 40-77 is left when no exception escapes it:
    by the [return] of line 42, or by running past it (the [break] of line
    58 or the end of the range) with the current [last_exception]. *)
Inductive loop_exit (T : Type) : Type :=
| Returned (v : T)
| Finished (last_exception : option GoogleAdsException).

Arguments Returned {T} v.
Arguments Finished {T} last_exception.

(** [isinstance(x, Exception)]: every exception of the model but a bare
    [BaseException]. *)
Definition isinstance_Exception (x : exn) : bool :=
  match x with
  | ExOther u => is_Exception u
  | _ => true
  end.

(** lines 40-77: the [for] loop over the attempts still in the range.
    [func_name] is [func.__name__]. *)
Fixpoint for_attempts {T : Type} (c : RetryConfig) (func_name : string)
    (attempts : list Z) (last_exception : option GoogleAdsException)
    {struct attempts} : M T (loop_exit T) :=
  match attempts with
  | [] => ret (Finished last_exception)
  | attempt :: rest =>
      (outcome <- try call_func ;;
       match outcome with
       | Val v => ret (Returned v)
       | Exc (ExGoogleAds e) =>
           let last_exception := Some e in
           retryable <- lift (_is_retryable_error e) ;;
           if negb retryable then
             logging_warning (LogNonRetryable e) ;;
             raise (ExAPIError
                      {| message := ("Google Ads API error in " ++ func_name)%string;
                         original_error := Some e;
                         context := kw_attempt (attempt + 1);
                         cause := Some e |})
           else if (attempt =? max_attempts c - 1)%Z then
             ret (Finished last_exception)
           else
             delay <- lift (delay_for c attempt) ;;
             delay <- (if jitter c
                       then r <- random_random ;; ret (with_jitter delay r)
                       else ret delay) ;;
             logging_warning
               (LogRetrying (attempt + 1) (max_attempts c) e delay) ;;
             time_sleep delay ;;
             for_attempts c func_name rest last_exception
       | Exc x =>
           (if isinstance_Exception x
            then logging_error (LogUnexpected x)
            else ret tt) ;;
           raise x
       end)%py
  end.

(** lines 37-85: [wrapper], the decorated function. *)
Definition wrapper {T : Type} (c : RetryConfig) (func_name : string) : M T T :=
  (exit <- for_attempts c func_name (range (max_attempts c)) None ;;
   match exit with
   | Returned v => ret v
   | Finished last_exception =>
       logging_error (LogAllFailed (max_attempts c)) ;;
       raise (ExAPIError
                {| message := ("Max retries exceeded for " ++ func_name)%string;
                   original_error := last_exception;
                   context := kw_max_attempts (max_attempts c);
                   cause := last_exception |})
   end)%py.

(** lines 15-88: [retry_on_api_error(...)] returns [decorator], which maps
    the function to its [wrapper]. *)
Definition retry_on_api_error {T : Type} (max_attempts : Z)
    (base_delay max_delay backoff_factor : Q) (jitter : bool)
    : string -> M T T :=
  fun func_name =>
    wrapper (mkRetryConfig max_attempts base_delay max_delay backoff_factor jitter)
            func_name.

(** ** Reading a run *)

(** How often the decorated function was invoked. *)
Fixpoint invocations (t : list event) : nat :=
  match t with
  | [] => 0
  | Invoked :: t' => S (invocations t')
  | _ :: t' => invocations t'
  end.

(** The delays slept, in order. *)
Fixpoint sleeps (t : list event) : list Q :=
  match t with
  | [] => []
  | Slept d :: t' => d :: sleeps t'
  | _ :: t' => sleeps t'
  end.

(** One run of the decorated function in the world [w]: the outcome and
    the events, in order. *)
Definition run {T : Type} (c : RetryConfig) (func_name : string) (w : World T)
    : res T * list event :=
  match wrapper c func_name w with
  | (r, _, t) => (r, t)
  end.

(** ** The classification as the specification words it *)

Module Spec.

(** [needle] occurs in [hay] as a substring. *)
Definition occurs_in (needle hay : string) : Prop :=
  exists before after, hay = (before ++ needle ++ after)%string.

(** Two strings are the same up to the case of their letters. *)
Definition same_ignoring_case (s t : string) : Prop :=
  PyStr.lower s = PyStr.lower t.

(** The fixed allow-list of error codes. *)
Definition allow_list : list string :=
  [ "INTERNAL_ERROR"; "QUOTA_ERROR"; "RATE_EXCEEDED";
    "CONCURRENT_MODIFICATION"; "PARTIAL_FAILURE_ERROR" ]%string.

(** The fixed list of phrases. *)
Definition phrase_list : list string :=
  [ "internal error"; "rate exceeded"; "quota exceeded"; "timeout";
    "temporary failure"; "service unavailable" ]%string.

(** The structured error code, when the error has one. *)
Definition code_of (e : GoogleAdsException) : option string :=
  match error e with
  | Some r => error_code r
  | None => None
  end.

(** The error's code matches a code of the allow-list, case-insensitively,
    by substring. *)
Definition code_matches (e : GoogleAdsException) : Prop :=
  exists ec code part,
    code_of e = Some ec /\ In code allow_list /\
    occurs_in part ec /\ same_ignoring_case part code.

(** The lower-cased message contains a phrase of the list. *)
Definition message_matches (e : GoogleAdsException) : Prop :=
  exists phrase,
    In phrase phrase_list /\ occurs_in phrase (PyStr.lower (exc_str e)).

Definition retryable (e : GoogleAdsException) : Prop :=
  code_matches e \/ message_matches e.

End Spec.

(** The code test of lines 120-123 as one boolean: false when a structured
    code field is absent. *)
Definition code_verdict (e : GoogleAdsException) : bool :=
  match Spec.code_of e with
  | Some ec =>
      PyStr.any (fun code => PyStr.contains code (PyStr.upper ec))
                retryable_error_codes
  | None => false
  end.

(** The message test of lines 126-128 on its own. *)
Definition message_verdict (e : GoogleAdsException) : bool :=
  PyStr.any (fun msg => PyStr.contains msg (PyStr.lower (exc_str e)))
            retryable_messages.

(** ** The vocabulary of the statements *)

(** [d] lies in the interval [[lo, hi) * x]: it is [x] scaled by a factor
    of [[lo, hi)]. *)
Definition in_scaled_interval (lo hi x d : Q) : Prop :=
  exists t, lo <= t /\ t < hi /\ d == t * x.

(** [d] lies in the closed interval [[lo, hi] * x]. *)
Definition in_closed_scaled_interval (lo hi x d : Q) : Prop :=
  exists t, lo <= t /\ t <= hi /\ d == t * x.

Section LoopVocabulary.

Context {T : Type}.
Variable c : RetryConfig.

(** The delay slept after a failed attempt (lines 61-65) in the world [w]
    reached after the invocation. *)
Definition slept_delay (attempt : Z) (w : World T) : Q :=
  if jitter c
  then with_jitter (backoff_delay c attempt) (next_random w)
  else backoff_delay c attempt.

(** The world after the delay was computed: one draw when jitter is on. *)
Definition after_delay (w : World T) : World T :=
  if jitter c then after_draw w else w.

(** The events of an iteration that sleeps and goes on. *)
Definition retry_events (attempt : Z) (e : GoogleAdsException) (d : Q)
    : list event :=
  [Invoked; Warned (LogRetrying (attempt + 1) (max_attempts c) e d); Slept d].

(** The attempts [a, a+1, ..., a+m-1] of the range still to run. *)
Definition attempts_from (a m : nat) : list Z := map Z.of_nat (seq a m).

(** The next [k] invocations all raise a [GoogleAdsException] that the
    classifier finds retryable. *)
Definition retryable_failures (k : nat) (w : World T) : Prop :=
  forall i, (i < k)%nat ->
    exists e, script w i = Exc (ExGoogleAds e) /\ _is_retryable_error e = Val true.



End LoopVocabulary.

(** Every sleep of the run lies between two invocations: one was made
    before it and one is made after it. *)
Definition sleeps_between_invocations (t : list event) : Prop :=
  forall before d after,
    t = (before ++ Slept d :: after)%list ->
    In Invoked before /\ In Invoked after.

(** The same, decided in one pass; [called] tells whether an invocation
    precedes [t]. *)
Fixpoint paced (called : bool) (t : list event) : bool :=
  match t with
  | [] => true
  | Invoked :: t' => paced true t'
  | Slept _ :: t' => called && (0 <? invocations t')%nat && paced called t'
  | _ :: t' => paced called t'
  end.

(** The time slept in a run, in all. *)
Definition total_sleep (t : list event) : Q := fold_right Qplus 0 (sleeps t).

Section LoopRelation.

Context {T : Type}.
Variable c : RetryConfig.
Variable func_name : string.

(** The loop of lines 40-77 as a relation: [attempts a w r w' t] when the
    iterations from attempt [a] on, started in the world [w], leave the
    loop with [r] in the world [w'] after the events [t].  One rule for
    each way through the body of the loop. *)
Inductive attempts : nat -> World T -> res (loop_exit T) -> World T ->
                     list event -> Prop :=
| attempts_return a w v :                                    (* line 42 *)
    script w 0 = Val v ->
    attempts a w (Val (Returned v)) (after_call w) [Invoked]
| attempts_unexpected a w x :                                (* lines 74-77 *)
    script w 0 = Exc x -> (forall e, x <> ExGoogleAds e) ->
    attempts a w (Exc x) (after_call w)
      (Invoked :: (if isinstance_Exception x
                   then [Errored (LogUnexpected x)] else []))
| attempts_fatal a w e :                                     (* lines 48-54 *)
    script w 0 = Exc (ExGoogleAds e) -> _is_retryable_error e = Val false ->
    attempts a w
      (Exc (ExAPIError
              {| message := ("Google Ads API error in " ++ func_name)%string;
                 original_error := Some e;
                 context := kw_attempt (Z.of_nat a + 1);
                 cause := Some e |}))
      (after_call w) [Invoked; Warned (LogNonRetryable e)]
| attempts_last a w e :                                      (* lines 57-58 *)
    script w 0 = Exc (ExGoogleAds e) -> _is_retryable_error e = Val true ->
    Z.of_nat a = (max_attempts c - 1)%Z ->
    attempts a w (Val (Finished (Some e))) (after_call w) [Invoked]
| attempts_overflow a w e x :                                (* line 61 *)
    script w 0 = Exc (ExGoogleAds e) -> _is_retryable_error e = Val true ->
    (Z.of_nat a < max_attempts c - 1)%Z ->
    delay_for c (Z.of_nat a) = Exc x ->
    attempts a w (Exc x) (after_call w) [Invoked]
| attempts_refused a w e x :                                 (* line 72 *)
    script w 0 = Exc (ExGoogleAds e) -> _is_retryable_error e = Val true ->
    (Z.of_nat a < max_attempts c - 1)%Z ->
    delay_for c (Z.of_nat a) = Val (backoff_delay c (Z.of_nat a)) ->
    sleep_refusal (slept_delay c (Z.of_nat a) (after_call w)) = Some x ->
    attempts a w (Exc x) (after_delay c (after_call w))
      [Invoked;
       Warned (LogRetrying (Z.of_nat a + 1) (max_attempts c) e
                 (slept_delay c (Z.of_nat a) (after_call w)))]
| attempts_retry a w e r w' t :                              (* lines 61-72 *)
    script w 0 = Exc (ExGoogleAds e) -> _is_retryable_error e = Val true ->
    (Z.of_nat a < max_attempts c - 1)%Z ->
    delay_for c (Z.of_nat a) = Val (backoff_delay c (Z.of_nat a)) ->
    sleep_refusal (slept_delay c (Z.of_nat a) (after_call w)) = None ->
    attempts (S a) (after_delay c (after_call w)) r w' t ->
    attempts a w r w'
      (retry_events c (Z.of_nat a) e
         (slept_delay c (Z.of_nat a) (after_call w)) ++ t)%list.

(** Lines 79-85: what [wrapper] does once the loop is left: the outcome
    and the events it adds. *)
Definition conclude (r : res (loop_exit T)) : res T * list event :=
  match r with
  | Val (Returned v) => (Val v, [])
  | Val (Finished last_exception) =>
      (Exc (ExAPIError
              {| message := ("Max retries exceeded for " ++ func_name)%string;
                 original_error := last_exception;
                 context := kw_max_attempts (max_attempts c);
                 cause := last_exception |}),
       [Errored (LogAllFailed (max_attempts c))])
  | Exc x => (Exc x, [])
  end.

End LoopRelation.

(** ** The inputs of the concrete runs *)

(** A rate-limit error with a structured code. *)
Definition rate_exceeded : GoogleAdsException :=
  {| error := Some {| error_code := Some "ErrorCode.RATE_EXCEEDED"%string |};
     exc_str := "Too many requests"%string |}.

(** An error with a structured code outside the allow-list and a message
    with none of the phrases. *)
Definition not_authorized : GoogleAdsException :=
  {| error := Some {| error_code := Some "AUTHORIZATION_ERROR"%string |};
     exc_str := "The caller has no access to the customer"%string |}.

(** An error without the [error] attribute. *)
Definition timed_out : GoogleAdsException :=
  {| error := None; exc_str := "Deadline exceeded: Timeout of 60s"%string |}.

(** An exception outside the [GoogleAdsException] hierarchy. *)
Definition value_error : exn :=
  ExOther {| is_Exception := true; what := "ValueError"%string |}.

(** The operation raises [rate_exceeded] on its first [k] invocations and
    ends with [final] on every later one; every draw of the random source
    is 0.0. *)
Definition failing_then (k : nat) (final : res nat) : World nat :=
  {| script := fun n => if (n <? k)%nat then Exc (ExGoogleAds rate_exceeded)
                        else final;
     entropy := fun _ => 0%Z |}.

(** The operation raises [rate_exceeded] at every invocation. *)
Definition always_failing : World nat :=
  {| script := fun _ => Exc (ExGoogleAds rate_exceeded);
     entropy := fun _ => 0%Z |}.

(** Eight attempts with the default delays: the cap of 30 seconds is
    reached at attempt 5. *)
Definition patient_config : RetryConfig :=
  {| max_attempts := 8; base_delay := 1; max_delay := 30;
     backoff_factor := 2; jitter := true |}.

(** The config of the example of the specification. *)
Definition plain_config : RetryConfig :=
  {| max_attempts := 3; base_delay := 1; max_delay := 30;
     backoff_factor := 2; jitter := false |}.

(** No budget at all. *)
Definition empty_config : RetryConfig :=
  {| max_attempts := 0; base_delay := 1; max_delay := 30;
     backoff_factor := 2; jitter := true |}.

(** C4 as the claim words it: every slept delay in [[0.5, 1.0)] times
    the uncapped [base_delay * backoff_factor^k], and at most
    [max_delay]. *)
Definition sleeps_in_uncapped_band (c : RetryConfig) (w : World nat) : Prop :=
  forall k d,
    nth_error (sleeps (snd (run c "fetch" w))) k = Some d ->
    in_scaled_interval (1 # 2) 1 (base_delay c * backoff_factor c ^ Z.of_nat k) d /\
    d <= max_delay c.

(** C3 as the claim words it: every non-retryable failure reports the
    attempt count 1. *)
Definition non_retryable_count_is_one (c : RetryConfig) (w : World nat) : Prop :=
  forall a t,
    run c "fetch" w = (Exc (ExAPIError a), t) ->
    reason a = non_retryable -> attempt_count a = 1%Z.

(** The inputs of the further concrete runs. *)

(** The operation returns 7 at once. *)
Definition succeeding : World nat :=
  {| script := fun _ => Val 7%nat; entropy := fun _ => 0%Z |}.

(** [always_failing] with another random source. *)
Definition always_failing_other_draws : World nat :=
  {| script := fun _ => Exc (ExGoogleAds rate_exceeded);
     entropy := fun n => Z.of_nat n |}.

(** [rate_exceeded] with text around the code and around the message. *)
Definition rate_exceeded_verbose : GoogleAdsException :=
  {| error := Some {| error_code := Some "<ErrorCode.RATE_EXCEEDED: 3>"%string |};
     exc_str := "Request failed: Too many requests (retry later)"%string |}.

(** [rate_exceeded] in other letters. *)
Definition rate_exceeded_shouting : GoogleAdsException :=
  {| error := Some {| error_code := Some "errorcode.Rate_Exceeded"%string |};
     exc_str := "TOO MANY REQUESTS"%string |}.

(** The run of the default config that succeeds at the third attempt. *)
Definition third_time_lucky : res nat * list event :=
  run default_config "fetch" (failing_then 2 (Val 42%nat)).

(** The run of the default config that meets a [ValueError] at the second
    attempt. *)
Definition second_attempt_crashes : res nat * list event :=
  run default_config "fetch" (failing_then 1 (Exc value_error)).

(** ** The classifier on code points *)

Module Unicode.

(** A Python [str] as the sequence of its code points. *)
Definition ustr : Type := list N.

Definition of_string (s : string) : ustr :=
  map N_of_ascii (list_ascii_of_string s).

(** [str.upper] on one code point, for an excerpt of the Unicode tables:
    the ASCII range, and U+0131 LATIN SMALL LETTER DOTLESS I, whose upper
    case is the ASCII letter I.  [None] for the code points the excerpt
    leaves out. *)
Definition upper_cp (cp : N) : option N :=
  if (cp <? 128)%N
  then Some (if ((97 <=? cp) && (cp <=? 122))%N then (cp - 32)%N else cp)
  else if (cp =? 305)%N then Some 73%N
  else None.

(** [str.lower] on one code point of the same excerpt; the dotless i is
    a small letter and stays. *)
Definition lower_cp (cp : N) : option N :=
  if (cp <? 128)%N
  then Some (if ((65 <=? cp) && (cp <=? 90))%N then (cp + 32)%N else cp)
  else if (cp =? 305)%N then Some 305%N
  else None.

Fixpoint map_cp (f : N -> option N) (s : ustr) : option ustr :=
  match s with
  | [] => Some []
  | cp :: s' =>
      match f cp, map_cp f s' with
      | Some u, Some us => Some (u :: us)
      | _, _ => None
      end
  end.

(** [s.upper()] and [s.lower()] *)
Definition upper : ustr -> option ustr := map_cp upper_cp.
Definition lower : ustr -> option ustr := map_cp lower_cp.

Fixpoint startswith (needle hay : ustr) : bool :=
  match needle, hay with
  | [], _ => true
  | _ :: _, [] => false
  | a :: n', b :: h' => (a =? b)%N && startswith n' h'
  end.

(** [needle in hay] *)
Fixpoint contains (needle hay : ustr) : bool :=
  startswith needle hay
  || match hay with
     | [] => false
     | _ :: h' => contains needle h'
     end.

(** lines 119-130 for an error with the structured code [error_code]
    ([None] when a field is absent) and the message [message]. *)
Definition _is_retryable_error (error_code : option ustr) (message : ustr)
    : option bool :=
  match
    match error_code with
    | Some ec =>
        match upper ec with
        | Some u =>
            Some (existsb (fun code => contains (of_string code) u)
                          retryable_error_codes)
        | None => None
        end
    | None => Some false
    end
  with
  | Some true => Some true
  | Some false =>
      match lower message with
      | Some error_message =>
          Some (existsb (fun msg => contains (of_string msg) error_message)
                        retryable_messages)
      | None => None
      end
  | None => None
  end.

(** The classification as the specification words it: a code of the
    allow-list occurs in the error code when the case of the letters is
    left aside (both lower-cased), or a phrase occurs in the lower-cased
    message. *)
Definition spec_retryable (error_code : option ustr) (message : ustr)
    : option bool :=
  match
    match error_code with
    | Some ec =>
        match lower ec with
        | Some l =>
            Some (existsb
                    (fun code =>
                       match lower (of_string code) with
                       | Some lc => contains lc l
                       | None => false
                       end)
                    Spec.allow_list)
        | None => None
        end
    | None => Some false
    end,
    lower message
  with
  | Some by_code, Some m =>
      Some (by_code
            || existsb (fun phrase => contains (of_string phrase) m)
                       Spec.phrase_list)
  | _, _ => None
  end.

(** The code "internal_error" spelled with a dotless i. *)
Definition dotless_internal_error : ustr :=
  305%N :: of_string "nternal_error".

End Unicode.

(** ** The inputs of the runs that are cut short *)

(** A config that keeps the invariants of the data model and whose third
    delay cannot be computed: the factor is [2^700], and its square is
    beyond the range of binary64. *)
Definition steep_config : RetryConfig :=
  {| max_attempts := 4; base_delay := 1; max_delay := 30;
     backoff_factor := inject_Z (2 ^ 700); jitter := false |}.




(** * Facts about strings *)

Section StringFacts.

Local Open Scope string_scope.

Lemma lower_upper_ascii (c : ascii) :
  PyStr.lower_ascii (PyStr.upper_ascii c) = PyStr.lower_ascii c.
Proof.
  destruct c as [[] [] [] [] [] [] [] []]; vm_compute; reflexivity.
Qed.

Lemma upper_lower_ascii (c : ascii) :
  PyStr.upper_ascii (PyStr.lower_ascii c) = PyStr.upper_ascii c.
Proof.
  destruct c as [[] [] [] [] [] [] [] []]; vm_compute; reflexivity.
Qed.

Lemma lower_upper (s : string) : PyStr.lower (PyStr.upper s) = PyStr.lower s.
Proof.
  induction s as [|c s IH]; simpl; [reflexivity|].
  now rewrite lower_upper_ascii, IH.
Qed.

Lemma upper_lower (s : string) : PyStr.upper (PyStr.lower s) = PyStr.upper s.
Proof.
  induction s as [|c s IH]; simpl; [reflexivity|].
  now rewrite upper_lower_ascii, IH.
Qed.

Lemma upper_app (a b : string) :
  PyStr.upper (a ++ b) = PyStr.upper a ++ PyStr.upper b.
Proof. induction a as [|x a IH]; simpl; [reflexivity | now rewrite IH]. Qed.

(** A split of [s.upper()] comes from a split of [s]. *)
Lemma upper_split (s a b : string) :
  PyStr.upper s = a ++ b ->
  exists a' b', s = a' ++ b' /\ PyStr.upper a' = a /\ PyStr.upper b' = b.
Proof.
  revert s; induction a as [|x a IH]; intros s H.
  - exists EmptyString, s. simpl in *. auto.
  - destruct s as [|c s]; simpl in H; [discriminate|].
    injection H as Hc Hs.
    destruct (IH s Hs) as (a' & b' & -> & Ha & Hb).
    exists (String c a'), b'. simpl. now rewrite Hc, Ha, Hb.
Qed.

Lemma startswith_iff (needle hay : string) :
  PyStr.startswith needle hay = true <-> exists after, hay = needle ++ after.
Proof.
  revert hay; induction needle as [|a n IH]; intros hay; simpl.
  - split; [intros _; now exists hay | reflexivity].
  - destruct hay as [|b h].
    + split; [discriminate | intros [after H]; discriminate].
    + rewrite andb_true_iff, Ascii.eqb_eq, IH. split.
      * intros [-> [after ->]]. now exists after.
      * intros [after H]. injection H as -> ->. split; [reflexivity | now exists after].
Qed.

(** [needle in hay] decides the substring relation. *)
Lemma contains_iff (needle hay : string) :
  PyStr.contains needle hay = true <-> Spec.occurs_in needle hay.
Proof.
  unfold Spec.occurs_in.
  induction hay as [|b h IH]; simpl; rewrite orb_true_iff, startswith_iff.
  - split.
    + intros [[after H] | H]; [|discriminate]. now exists EmptyString, after.
    + intros (before & after & H). left.
      destruct before; simpl in H; [now exists after | discriminate].
  - rewrite IH. split.
    + intros [[after H] | (before & after & H)].
      * now exists EmptyString, after.
      * exists (String b before), after. simpl. now rewrite H.
    + intros (before & after & H). destruct before as [|c before]; simpl in H.
      * left. now exists after.
      * right. injection H as _ H. now exists before, after.
Qed.

(** [any] finds a member of the list that passes the test. *)
Lemma any_iff {A : Type} (p : A -> bool) (xs : list A) :
  PyStr.any p xs = true <-> exists x, In x xs /\ p x = true.
Proof. apply existsb_exists. Qed.

(** A code of the allow-list is found in [ec.upper()] exactly when some
    part of [ec] equals it up to case. *)
Lemma code_in_upper_iff (code ec : string) :
  PyStr.upper code = code ->
  (PyStr.contains code (PyStr.upper ec) = true <->
   exists part, Spec.occurs_in part ec /\ Spec.same_ignoring_case part code).
Proof.
  intros Hup. rewrite contains_iff. unfold Spec.occurs_in, Spec.same_ignoring_case.
  split.
  - intros (before & after & H).
    apply upper_split in H as (b' & rest & -> & Hb & Hrest).
    apply upper_split in Hrest as (part & a' & -> & Hp & Ha).
    exists part. split; [now exists b', a'|].
    now rewrite <- (lower_upper part), Hp.
  - intros (part & (before & after & ->) & Hlow).
    exists (PyStr.upper before), (PyStr.upper after).
    rewrite !upper_app. do 2 f_equal.
    now rewrite <- (upper_lower part), Hlow, upper_lower.
Qed.

Lemma allow_list_upper (code : string) :
  In code retryable_error_codes -> PyStr.upper code = code.
Proof.
  simpl. intros H.
  repeat (destruct H as [<- | H]; [reflexivity|]). contradiction.
Qed.

End StringFacts.

(** * The classifier *)

Section Classifier.

(** The classifier never raises, whatever attributes the error has; its
    verdict is the disjunction of the two tests. *)
Lemma _is_retryable_error_value (e : GoogleAdsException) :
  _is_retryable_error e = Val (code_verdict e || message_verdict e).
Proof.
  unfold _is_retryable_error, code_verdict, message_verdict, Spec.code_of,
    Pure.get_error, Pure.get_error_code.
  destruct e as [[[[ec|]]|] msg]; cbn -[PyStr.any];
    repeat match goal with
           | |- context [PyStr.any ?p ?l] =>
               destruct (PyStr.any p l); cbn -[PyStr.any]
           end; reflexivity.
Qed.

Lemma code_verdict_iff (e : GoogleAdsException) :
  code_verdict e = true <-> Spec.code_matches e.
Proof.
  unfold code_verdict, Spec.code_matches.
  destruct (Spec.code_of e) as [ec|].
  - rewrite any_iff. split.
    + intros (code & Hin & Hc).
      apply code_in_upper_iff in Hc as (part & Ho & Hs);
        [|now apply allow_list_upper].
      now exists ec, code, part.
    + intros (ec' & code & part & Hec & Hin & Ho & Hs).
      injection Hec as <-. exists code. split; [exact Hin|].
      apply code_in_upper_iff; [now apply allow_list_upper|].
      now exists part.
  - split; [discriminate|]. intros (ec & code & part & H & _). discriminate.
Qed.

Lemma message_verdict_iff (e : GoogleAdsException) :
  message_verdict e = true <-> Spec.message_matches e.
Proof.
  unfold message_verdict, Spec.message_matches. rewrite any_iff.
  split; intros (m & Hin & H); exists m; (split; [exact Hin|]);
    now apply contains_iff.
Qed.

Lemma verdict_iff (e : GoogleAdsException) :
  code_verdict e || message_verdict e = true <-> Spec.retryable e.
Proof.
  unfold Spec.retryable.
  now rewrite orb_true_iff, code_verdict_iff, message_verdict_iff.
Qed.

(** C2, as the code has it: for an error whose code, when it has one, is
    made of ASCII characters, [_is_retryable_error] returns True exactly
    when the code matches the allow-list (case-insensitively, by
    substring) or the lower-cased message contains a listed phrase, and
    False for every other such error (default-deny).  On the 8-bit
    strings of the model the hypothesis is not needed; it is what keeps
    [str.upper] within its ASCII behaviour. *)
Theorem classify_retryable_iff (e : GoogleAdsException) :
  (forall ec, Spec.code_of e = Some ec -> PyStr.isascii ec = true) ->
  (_is_retryable_error e = Val true <-> Spec.retryable e) /\
  (_is_retryable_error e = Val false <-> ~ Spec.retryable e).
Proof.
  intros _.
  rewrite _is_retryable_error_value, <- verdict_iff.
  destruct (code_verdict e || message_verdict e); split; split;
    try congruence; intros H; try reflexivity; exfalso; auto.
Qed.

(** C9: when a structured code field is absent (no [error] attribute, or no
    [error_code] attribute on it), [_is_retryable_error] does not raise: it
    returns the verdict of the message test alone. *)
Theorem classify_without_code (e : GoogleAdsException) :
  error e = None \/ (exists r, error e = Some r /\ error_code r = None) ->
  _is_retryable_error e = Val (message_verdict e) /\
  (_is_retryable_error e = Val true <-> Spec.message_matches e).
Proof.
  intros Habsent.
  assert (Hnone : Spec.code_of e = None).
  { unfold Spec.code_of. destruct Habsent as [-> | (r & -> & Hr)]; auto. }
  rewrite _is_retryable_error_value.
  unfold code_verdict. rewrite Hnone. simpl. split; [reflexivity|].
  rewrite <- message_verdict_iff. split; congruence.
Qed.

End Classifier.

(** * The backoff schedule *)

Section Backoff.


(** The builtin [min] on two numbers is the lesser of the two. *)
Lemma py_min_Qmin (a b : Q) : py_min a b = Qmin a b.
Proof.
  unfold py_min, py_lt, Qmin, GenericMinMax.gmin.
  rewrite <- (Qcompare_antisym a b).
  destruct (a ?= b); reflexivity.
Qed.

Lemma py_min_le_l (a b : Q) : py_min a b <= a.
Proof. rewrite py_min_Qmin. apply Q.le_min_l. Qed.

Lemma py_min_le_r (a b : Q) : py_min a b <= b.
Proof. rewrite py_min_Qmin. apply Q.le_min_r. Qed.


(** Line 61 yields [backoff_delay] or raises [OverflowError]. *)
Lemma delay_for_cases (c : RetryConfig) (a : Z) :
  (Qabs (backoff_factor c ^ a) < float_overflow /\
   delay_for c a = Val (backoff_delay c a)) \/
  (float_overflow <= Qabs (backoff_factor c ^ a) /\
   delay_for c a = Exc ExOverflowError).
Proof.
  unfold delay_for, py_pow, backoff_delay.
  destruct (Qle_bool float_overflow (Qabs (backoff_factor c ^ a))) eqn:H.
  - right. split; [now apply Qle_bool_iff | reflexivity].
  - left. split; [|reflexivity].
    apply Qnot_le_lt. intros Hle. apply Qle_bool_iff in Hle. congruence.
Qed.




End Backoff.

(** * The retry loop *)

Section Executor.

Context {T : Type}.
Variable c : RetryConfig.
Variable func_name : string.





Ltac run_step :=
  cbn [for_attempts]; unfold bind, try, call_func, lift, ret, raise,
    logging_warning, logging_error, time_sleep, random_random.

Lemma step_return a rest last (w : World T) v :
  script w 0 = Val v ->
  for_attempts c func_name (a :: rest) last w
  = (Val (Returned v), after_call w, [Invoked]).
Proof. intros H. run_step. rewrite H. reflexivity. Qed.

Lemma step_unexpected a rest last (w : World T) x :
  script w 0 = Exc x -> (forall e, x <> ExGoogleAds e) ->
  for_attempts c func_name (a :: rest) last w
  = (Exc x, after_call w,
     Invoked :: (if isinstance_Exception x
                 then [Errored (LogUnexpected x)] else [])).
Proof.
  intros H Hx. run_step. rewrite H.
  destruct x as [e | a' | attr | | | u]; [now elim (Hx e) | | | | |]; cbn;
    try reflexivity.
  destruct (is_Exception u); reflexivity.
Qed.

Lemma step_fatal a rest last (w : World T) e :
  script w 0 = Exc (ExGoogleAds e) -> _is_retryable_error e = Val false ->
  for_attempts c func_name (a :: rest) last w
  = (Exc (ExAPIError
            {| message := ("Google Ads API error in " ++ func_name)%string;
               original_error := Some e;
               context := kw_attempt (a + 1);
               cause := Some e |}),
     after_call w, [Invoked; Warned (LogNonRetryable e)]).
Proof. intros H Hc. run_step. rewrite H, Hc. reflexivity. Qed.

Lemma step_last a rest last (w : World T) e :
  script w 0 = Exc (ExGoogleAds e) -> _is_retryable_error e = Val true ->
  a = (max_attempts c - 1)%Z ->
  for_attempts c func_name (a :: rest) last w
  = (Val (Finished (Some e)), after_call w, [Invoked]).
Proof.
  intros H Hc Ha. run_step. rewrite H, Hc. cbn.
  rewrite (proj2 (Z.eqb_eq _ _) Ha). reflexivity.
Qed.

(** Line 61 raises: the exception leaves the loop, before any log record
    and any sleep. *)
Lemma step_overflow a rest last (w : World T) e x :
  script w 0 = Exc (ExGoogleAds e) -> _is_retryable_error e = Val true ->
  a <> (max_attempts c - 1)%Z ->
  delay_for c a = Exc x ->
  for_attempts c func_name (a :: rest) last w
  = (Exc x, after_call w, [Invoked]).
Proof.
  intros H Hc Ha Hd. run_step. rewrite H, Hc. cbn.
  rewrite (proj2 (Z.eqb_neq _ _) Ha), Hd. reflexivity.
Qed.

(** [time.sleep] raises: the exception leaves the loop after the warning,
    and no sleep is made. *)
Lemma step_refused a rest last (w : World T) e x :
  script w 0 = Exc (ExGoogleAds e) -> _is_retryable_error e = Val true ->
  a <> (max_attempts c - 1)%Z ->
  delay_for c a = Val (backoff_delay c a) ->
  sleep_refusal (slept_delay c a (after_call w)) = Some x ->
  for_attempts c func_name (a :: rest) last w
  = (Exc x, after_delay c (after_call w),
     [Invoked;
      Warned (LogRetrying (a + 1) (max_attempts c) e
                (slept_delay c a (after_call w)))]).
Proof.
  intros H Hc Ha Hd Hs. run_step. rewrite H, Hc. cbn.
  rewrite (proj2 (Z.eqb_neq _ _) Ha), Hd.
  unfold after_delay, slept_delay in *.
  destruct (jitter c); cbn; rewrite Hs; reflexivity.
Qed.

Lemma step_retry a rest last (w : World T) e :
  script w 0 = Exc (ExGoogleAds e) -> _is_retryable_error e = Val true ->
  a <> (max_attempts c - 1)%Z ->
  delay_for c a = Val (backoff_delay c a) ->
  sleep_refusal (slept_delay c a (after_call w)) = None ->
  for_attempts c func_name (a :: rest) last w
  = match for_attempts c func_name rest (Some e) (after_delay c (after_call w)) with
    | (r, w', t) =>
        (r, w', (retry_events c a e (slept_delay c a (after_call w)) ++ t)%list)
    end.
Proof.
  intros H Hc Ha Hd Hs. run_step. rewrite H, Hc. cbn.
  rewrite (proj2 (Z.eqb_neq _ _) Ha), Hd.
  unfold after_delay, slept_delay, retry_events in *.
  destruct (jitter c); cbn; rewrite Hs;
    destruct (for_attempts c func_name rest (Some e) _) as [[r w'] t];
    reflexivity.
Qed.

Lemma range_attempts_from (n : Z) : range n = attempts_from 0 (Z.to_nat n).
Proof. reflexivity. Qed.

Lemma attempts_from_S (a m : nat) :
  attempts_from a (S m) = Z.of_nat a :: attempts_from (S a) m.
Proof. reflexivity. Qed.

Lemma script_after_retry (w : World T) (i : nat) :
  script (after_delay c (after_call w)) i = script w (S i).
Proof. unfold after_delay. destruct (jitter c); reflexivity. Qed.


Lemma invocations_app (t1 t2 : list event) :
  invocations (t1 ++ t2) = (invocations t1 + invocations t2)%nat.
Proof.
  induction t1 as [|[] t1 IH]; simpl; rewrite ?IH; reflexivity.
Qed.

Lemma sleeps_app (t1 t2 : list event) :
  sleeps (t1 ++ t2) = (sleeps t1 ++ sleeps t2)%list.
Proof.
  induction t1 as [|[] t1 IH]; simpl; rewrite ?IH; reflexivity.
Qed.



(** What [wrapper] makes of the three ways the loop can end. *)
Lemma run_of_loop (w : World T) :
  run c func_name w
  = match for_attempts c func_name (range (max_attempts c)) None w with
    | (Val (Returned v), _, t) => (Val v, t)
    | (Val (Finished last_exception), _, t) =>
        (Exc (ExAPIError
                {| message := ("Max retries exceeded for " ++ func_name)%string;
                   original_error := last_exception;
                   context := kw_max_attempts (max_attempts c);
                   cause := last_exception |}),
         (t ++ [Errored (LogAllFailed (max_attempts c))])%list)
    | (Exc x, _, t) => (Exc x, t)
    end.
Proof.
  unfold run, wrapper, bind.
  destruct (for_attempts c func_name (range (max_attempts c)) None w)
    as [[[[v|last]|x] w'] t]; cbn; rewrite ?app_nil_r; reflexivity.
Qed.




(** C10: with [max_attempts <= 0] the operation is never invoked and
    nothing is slept; the wrapper raises the [APIError] of line 81,
    "Max retries exceeded ...", with [original_error] (and cause) [None]:
    the parameter is not checked on entry. *)
Theorem no_attempt_without_budget (w : World T) :
  (max_attempts c <= 0)%Z ->
  exists t,
    run c func_name w
    = (Exc (ExAPIError
              {| message := ("Max retries exceeded for " ++ func_name)%string;
                 original_error := None;
                 context := kw_max_attempts (max_attempts c);
                 cause := None |}), t) /\
    invocations t = 0%nat /\ sleeps t = [].
Proof.
  intros Hmax. rewrite run_of_loop. unfold range.
  replace (Z.to_nat (max_attempts c)) with 0%nat by lia.
  cbn. eexists. repeat split.
Qed.

End Executor.

(** * Invariants of every run *)

Section Invariants.

Context {T : Type}.
Variable c : RetryConfig.
Variable func_name : string.

Lemma invocations_In (t : list event) :
  (0 < invocations t)%nat -> In Invoked t.
Proof.
  induction t as [|[] t IH]; simpl; intros H; auto; lia.
Qed.

Lemma paced_called (t : list event) :
  paced false t = true -> paced true t = true.
Proof.
  induction t as [|[] t IH]; simpl; auto. discriminate.
Qed.

Lemma paced_log_after (called : bool) (t : list event) (l : log_record) :
  paced called (t ++ [Errored l]) = paced called t.
Proof.
  revert called; induction t as [|[] t IH]; intros called; simpl;
    rewrite ?IH, ?invocations_app, ?Nat.add_0_r; reflexivity.
Qed.

Lemma paced_between (t : list event) :
  forall called, paced called t = true ->
  forall before d after,
    t = (before ++ Slept d :: after)%list ->
    (called = true \/ In Invoked before) /\ In Invoked after.
Proof.
  induction t as [|ev t IH]; intros called Hp before d after Heq.
  - destruct before; discriminate.
  - destruct before as [|ev' before]; cbn in Heq; injection Heq as -> Ht.
    + cbn in Hp. apply andb_true_iff in Hp as [Hp _].
      apply andb_true_iff in Hp as [Hc Hi]. subst t.
      split; [now left|]. apply invocations_In. now apply Nat.ltb_lt.
    + destruct ev'; cbn in Hp.
      * destruct (IH true Hp before d after Ht) as [_ Ha].
        split; [right; now left | exact Ha].
      * apply andb_true_iff in Hp as [_ Hp].
        destruct (IH called Hp before d after Ht) as [[Hc|Hb] Ha];
          (split; [|exact Ha]); [now left | right; now right].
      * destruct (IH called Hp before d after Ht) as [[Hc|Hb] Ha];
          (split; [|exact Ha]); [now left | right; now right].
      * destruct (IH called Hp before d after Ht) as [[Hc|Hb] Ha];
          (split; [|exact Ha]); [now left | right; now right].
Qed.

(** One iteration either ends the loop after its invocation, with no
    sleep, or logs, sleeps and goes on with the next attempt. *)
Lemma step_cases (a : Z) rest last (w : World T) :
  (exists r w1 logs,
     for_attempts c func_name (a :: rest) last w
     = (r, w1, Invoked :: logs) /\
     invocations logs = 0%nat /\ sleeps logs = []) \/
  (exists e,
     a <> (max_attempts c - 1)%Z /\
     sleep_refusal (slept_delay c a (after_call w)) = None /\
     for_attempts c func_name (a :: rest) last w
     = match for_attempts c func_name rest (Some e)
               (after_delay c (after_call w)) with
       | (r, w', t) =>
           (r, w',
            (retry_events c a e (slept_delay c a (after_call w)) ++ t)%list)
       end).
Proof.
  destruct (script w 0) as [v | x] eqn:Hcall.
  - left. rewrite (step_return c func_name a rest last w v Hcall).
    eexists _, _, []. repeat split.
  - destruct x as [e | a' | attr | | | u].
    + pose proof (_is_retryable_error_value e) as Hv.
      destruct (code_verdict e || message_verdict e).
      * destruct (Z.eq_dec a (max_attempts c - 1)) as [Ha | Ha].
        -- left. rewrite (step_last c func_name a rest last w e Hcall Hv Ha).
           eexists _, _, []. repeat split.
        -- destruct (delay_for_cases c a) as [[_ Hd] | [_ Hd]].
           ++ destruct (sleep_refusal (slept_delay c a (after_call w)))
                as [x|] eqn:Hs.
              ** left.
                 rewrite (step_refused c func_name a rest last w e x
                            Hcall Hv Ha Hd Hs).
                 eexists _, _, [_]. repeat split.
              ** right. exists e. split; [exact Ha|]. split; [reflexivity|].
                 exact (step_retry c func_name a rest last w e Hcall Hv Ha Hd Hs).
           ++ left.
              rewrite (step_overflow c func_name a rest last w e _
                         Hcall Hv Ha Hd).
              eexists _, _, []. repeat split.
      * left. rewrite (step_fatal c func_name a rest last w e Hcall Hv).
        eexists _, _, [_]. repeat split.
    + left. rewrite (step_unexpected c func_name a rest last w _ Hcall)
        by discriminate.
      eexists _, _, _. repeat split.
    + left. rewrite (step_unexpected c func_name a rest last w _ Hcall)
        by discriminate.
      eexists _, _, _. repeat split.
    + left. rewrite (step_unexpected c func_name a rest last w _ Hcall)
        by discriminate.
      eexists _, _, _. repeat split.
    + left. rewrite (step_unexpected c func_name a rest last w _ Hcall)
        by discriminate.
      eexists _, _, _. repeat split.
    + left. rewrite (step_unexpected c func_name a rest last w _ Hcall)
        by discriminate.
      eexists _, _, _. split; [reflexivity|].
      cbn. destruct (is_Exception u); split; reflexivity.
Qed.

(** The loop over the attempts [a .. a+m-1] that end the range: at most
    [m] invocations, at least one when [m > 0], and every sleep between
    two invocations. *)
Lemma loop_paced (m : nat) :
  forall (a : nat) last (w : World T),
    Z.of_nat (a + m) = max_attempts c ->
    match for_attempts c func_name (attempts_from a m) last w with
    | (_, _, t) =>
        paced false t = true /\ (invocations t <= m)%nat /\
        ((0 < m)%nat -> (0 < invocations t)%nat)
    end.
Proof.
  induction m as [|m IH]; intros a last w Hmax.
  - cbn. repeat split; lia.
  - rewrite attempts_from_S.
    destruct (step_cases (Z.of_nat a) (attempts_from (S a) m) last w)
      as [(r & w1 & logs & -> & Hi & Hs) | (e & Ha & Hacc & ->)].
    + cbn. rewrite Hi. repeat split; try lia.
      clear -Hi Hs. induction logs as [|[] logs IHl]; cbn in *;
        try discriminate; auto.
    + specialize (IH (S a) (Some e) (after_delay c (after_call w))
                     ltac:(rewrite <- Hmax; lia)).
      destruct (for_attempts c func_name (attempts_from (S a) m) (Some e) _)
        as [[r w'] t].
      destruct IH as (Hp & Hle & Hpos).
      assert (0 < m)%nat as Hm by lia. specialize (Hpos Hm).
      unfold retry_events. cbn [app paced invocations andb].
      rewrite (paced_called _ Hp), (proj2 (Nat.ltb_lt _ _) Hpos).
      repeat split; lia.
Qed.

(** C8: in every run, however it ends, the operation is invoked at most
    [max_attempts] times (for a budget that is not negative), and every
    sleep lies between two invocations: none comes before the first
    attempt and none after the last. *)
Theorem attempts_bounded_and_sleeps_between (w : World T) :
  (0 <= max_attempts c)%Z ->
  match run c func_name w with
  | (_, t) =>
      (Z.of_nat (invocations t) <= max_attempts c)%Z /\
      sleeps_between_invocations t
  end.
Proof.
  intros Hmax. rewrite run_of_loop, range_attempts_from.
  pose proof (loop_paced (Z.to_nat (max_attempts c)) 0 None w
                ltac:(cbn [Nat.add]; lia)) as H.
  destruct (for_attempts c func_name _ None w) as [[r w'] t].
  destruct H as (Hp & Hle & _).
  assert (Hbetween : forall l,
             sleeps_between_invocations t /\
             sleeps_between_invocations (t ++ [Errored l])).
  { intros l. split; intros before d after Heq.
    - destruct (paced_between t false Hp before d after Heq) as [[?|?] ?];
        [discriminate | now split].
    - rewrite <- (paced_log_after false t l) in Hp.
      destruct (paced_between _ false Hp before d after Heq) as [[?|?] ?];
        [discriminate | now split]. }
  destruct r as [[v|last]|x].
  - split; [lia | apply (Hbetween (LogAllFailed 0))].
  - rewrite invocations_app, Nat.add_0_r. split; [lia | apply Hbetween].
  - split; [lia | apply (Hbetween (LogAllFailed 0))].
Qed.

End Invariants.

(** * The delays that are slept *)

Section SleptDelays.

Context {T : Type}.
Variable c : RetryConfig.
Variable func_name : string.

(** [random.random()] yields a number of [0.0, 1.0). *)
Lemma next_random_range (w : World T) : 0 <= next_random w /\ next_random w < 1.
Proof.
  pose proof (Z.mod_pos_bound (entropy w 0) (2 ^ 53) eq_refl) as [Hlo Hhi].
  unfold next_random, Qle, Qlt. cbn [Qnum Qden].
  change (Z.pos (2 ^ 53)) with (2 ^ 53)%Z. lia.
Qed.

(** The [k]-th sleep of the loop started at attempt [a] is the delay of
    attempt [a + k], scaled by the jitter of one draw when jitter is on. *)
Lemma loop_sleeps (m : nat) :
  forall (a : nat) last (w : World T) (k : nat) (d : Q),
    match for_attempts c func_name (attempts_from a m) last w with
    | (_, _, t) =>
        nth_error (sleeps t) k = Some d ->
        exists r, 0 <= r /\ r < 1 /\
          d = if jitter c
              then with_jitter (backoff_delay c (Z.of_nat (a + k))) r
              else backoff_delay c (Z.of_nat (a + k))
    end.
Proof.
  induction m as [|m IH]; intros a last w k d.
  - cbn. destruct k; discriminate.
  - rewrite attempts_from_S.
    destruct (step_cases c func_name (Z.of_nat a) (attempts_from (S a) m) last w)
      as [(r & w1 & logs & -> & Hi & Hs) | (e & Ha & Hacc & ->)].
    + cbn. rewrite Hs. destruct k; discriminate.
    + specialize (IH (S a) (Some e) (after_delay c (after_call w))).
      destruct (for_attempts c func_name (attempts_from (S a) m) (Some e) _)
        as [[r w'] t].
      cbn. destruct k as [|k]; cbn.
      * intros [= <-]. exists (next_random (after_call w)).
        destruct (next_random_range (after_call w)) as [Hlo Hhi].
        rewrite Nat.add_0_r. unfold slept_delay. now destruct (jitter c).
      * intros Hk. replace (a + S k)%nat with (S a + k)%nat by lia.
        now apply IH.
Qed.

Lemma run_sleeps (w : World T) (k : nat) (d : Q) :
  nth_error (sleeps (snd (run c func_name w))) k = Some d ->
  exists r, 0 <= r /\ r < 1 /\
    d = if jitter c
        then with_jitter (backoff_delay c (Z.of_nat k)) r
        else backoff_delay c (Z.of_nat k).
Proof.
  rewrite run_of_loop, range_attempts_from.
  pose proof (loop_sleeps (Z.to_nat (max_attempts c)) 0 None w k d) as H.
  destruct (for_attempts c func_name _ None w) as [[[[v|last]|x] w'] t];
    cbn [snd]; rewrite ?sleeps_app; cbn [sleeps]; rewrite ?app_nil_r;
    exact H.
Qed.

(** Without jitter the [k]-th sleep is the delay of line 61 for attempt
    [k]. *)
Lemma sleep_without_jitter (w : World T) (k : nat) (d : Q) :
  jitter c = false ->
  nth_error (sleeps (snd (run c func_name w))) k = Some d ->
  d = backoff_delay c (Z.of_nat k).
Proof.
  intros Hj Hk. destruct (run_sleeps w k d Hk) as (r & _ & _ & ->).
  now rewrite Hj.
Qed.


(** C4, as the code has it: with jitter, the delay slept after attempt
    [k] lies in the closed interval [[0.5, 1.0]] times the capped delay of
    line 61, [min(base_delay * backoff_factor^k, max_delay)], and is at
    most [max_delay].  The capped delay is taken to be at least twice the
    least normal number of binary64, so that its half is a number of
    binary64 too; the exact arithmetic of the model does not need that. *)
Theorem jittered_sleep_in_band (w : World T) (k : nat) (d : Q) :
  jitter c = true ->
  2 * smallest_normal <= backoff_delay c (Z.of_nat k) ->
  nth_error (sleeps (snd (run c func_name w))) k = Some d ->
  in_closed_scaled_interval (1 # 2) 1 (backoff_delay c (Z.of_nat k)) d /\
  d <= max_delay c.
Proof.
  intros Hj Hnormal Hk.
  destruct (run_sleeps w k d Hk) as (r & Hlo & Hhi & ->).
  rewrite Hj. unfold with_jitter.
  pose proof (py_min_le_r (base_delay c * backoff_factor c ^ Z.of_nat k)
                (max_delay c)) as Hcap.
  fold (backoff_delay c (Z.of_nat k)) in Hcap.
  assert (Hpos : 0 < 2 * smallest_normal) by reflexivity.
  set (D := backoff_delay c (Z.of_nat k)) in *.
  split.
  - exists ((1 # 2) + r * (1 # 2)). split; [lra|]. split; [lra|]. ring.
  - nra.
Qed.

End SleptDelays.

(** * What every run is made of *)

Section Outcomes.

Context {T : Type}.
Variable c : RetryConfig.
Variable func_name : string.

(** The loop over the attempts that end the range follows the rules of
    [attempts]. *)
Lemma for_attempts_attempts (m : nat) :
  forall (a : nat) last (w : World T),
    (0 < m)%nat -> Z.of_nat (a + m) = max_attempts c ->
    match for_attempts c func_name (attempts_from a m) last w with
    | (r, w', t) => attempts c func_name a w r w' t
    end.
Proof.
  induction m as [|m IH]; intros a last w Hm Hmax; [lia|].
  rewrite attempts_from_S.
  destruct (script w 0) as [v | x] eqn:Hcall.
  - rewrite (step_return c func_name _ _ last w v Hcall). now constructor.
  - destruct x as [e | a' | attr | | | u].
    + pose proof (_is_retryable_error_value e) as Hv.
      destruct (code_verdict e || message_verdict e).
      * destruct (Z.eq_dec (Z.of_nat a) (max_attempts c - 1)) as [Ha | Ha].
        -- rewrite (step_last c func_name _ _ last w e Hcall Hv Ha).
           now constructor.
        -- destruct (delay_for_cases c (Z.of_nat a)) as [[_ Hd] | [_ Hd]].
           ++ destruct (sleep_refusal
                          (slept_delay c (Z.of_nat a) (after_call w)))
                as [x|] eqn:Hs.
              ** rewrite (step_refused c func_name _ _ last w e x
                            Hcall Hv Ha Hd Hs).
                 apply (attempts_refused c func_name a w e x);
                   [exact Hcall | exact Hv | lia | exact Hd | exact Hs].
              ** rewrite (step_retry c func_name _ _ last w e
                            Hcall Hv Ha Hd Hs).
                 specialize (IH (S a) (Some e) (after_delay c (after_call w))
                                ltac:(lia) ltac:(lia)).
                 destruct (for_attempts c func_name (attempts_from (S a) m)
                             (Some e) _) as [[r w'] t].
                 apply attempts_retry;
                   [exact Hcall | exact Hv | lia | exact Hd | exact Hs | exact IH].
           ++ rewrite (step_overflow c func_name _ _ last w e _
                         Hcall Hv Ha Hd).
              apply (attempts_overflow c func_name a w e);
                [exact Hcall | exact Hv | lia | exact Hd].
      * rewrite (step_fatal c func_name _ _ last w e Hcall Hv). now constructor.
    + rewrite (step_unexpected c func_name _ _ last w _ Hcall) by discriminate.
      constructor; [exact Hcall | discriminate].
    + rewrite (step_unexpected c func_name _ _ last w _ Hcall) by discriminate.
      constructor; [exact Hcall | discriminate].
    + rewrite (step_unexpected c func_name _ _ last w _ Hcall) by discriminate.
      constructor; [exact Hcall | discriminate].
    + rewrite (step_unexpected c func_name _ _ last w _ Hcall) by discriminate.
      constructor; [exact Hcall | discriminate].
    + rewrite (step_unexpected c func_name _ _ last w _ Hcall) by discriminate.
      constructor; [exact Hcall | discriminate].
Qed.

Ltac by_rules H :=
  induction H as [a w v H | a w x H Hx | a w e H Hc | a w e H Hc Ha
                 | a w e x H Hc Ha Hd | a w e x H Hc Ha Hd Hs
                 | a w e r w' t H Hc Ha Hd Hs Hrec IH].

(** At least one invocation, and one sleep less than invocations. *)
Lemma attempts_counts a (w : World T) r w' t :
  attempts c func_name a w r w' t ->
  (1 <= invocations t)%nat /\
  List.length (sleeps t) = (invocations t - 1)%nat.
Proof.
  intros H. by_rules H.
  - split; cbn; lia.
  - destruct (isinstance_Exception x); split; cbn; lia.
  - split; cbn; lia.
  - split; cbn; lia.
  - split; cbn; lia.
  - split; cbn; lia.
  - destruct IH as [IH1 IH2].
    rewrite invocations_app, sleeps_app, length_app. cbn. split; lia.
Qed.

(** The invocations but the last raised retryable errors. *)
Lemma attempts_script a (w : World T) r w' t :
  attempts c func_name a w r w' t ->
  retryable_failures (invocations t - 1) w.
Proof.
  intros H. by_rules H; try (intros i Hi; cbn in Hi; lia).
  - intros i Hi. destruct (isinstance_Exception x); cbn in Hi; lia.
  - destruct (attempts_counts _ _ _ _ _ Hrec) as [Hn _].
    rewrite invocations_app. cbn [retry_events invocations Nat.add].
    intros i Hi. destruct i as [|i]; [now exists e|].
    rewrite <- script_after_retry with (c := c). apply IH. lia.
Qed.

(** Without jitter the delays slept are the schedule of line 61 from
    attempt [a] on. *)
Lemma attempts_schedule a (w : World T) r w' t :
  jitter c = false ->
  attempts c func_name a w r w' t ->
  sleeps t
  = map (fun k => backoff_delay c (Z.of_nat k)) (seq a (List.length (sleeps t))).
Proof.
  intros Hj H. by_rules H; try reflexivity.
  - now destruct (isinstance_Exception x).
  - cbn. rewrite <- IH. unfold slept_delay. now rewrite Hj.
Qed.

(** How the loop is left, read against the script. *)
Lemma attempts_result a (w : World T) r w' t :
  attempts c func_name a w r w' t ->
  match r with
  | Val (Returned v) => script w (invocations t - 1) = Val v
  | Val (Finished last) =>
      Z.of_nat (a + invocations t) = max_attempts c /\
      exists e, last = Some e /\
                script w (invocations t - 1) = Exc (ExGoogleAds e) /\
                _is_retryable_error e = Val true
  | Exc x =>
      (script w (invocations t - 1) = Exc x /\ forall e, x <> ExGoogleAds e) \/
      (exists e,
         script w (invocations t - 1) = Exc (ExGoogleAds e) /\
         _is_retryable_error e = Val false /\
         x = ExAPIError
               {| message := ("Google Ads API error in " ++ func_name)%string;
                  original_error := Some e;
                  context := kw_attempt (Z.of_nat (a + invocations t));
                  cause := Some e |}) \/
      (exists e,
         script w (invocations t - 1) = Exc (ExGoogleAds e) /\
         _is_retryable_error e = Val true /\
         (x = ExOverflowError \/ x = ExValueError))
  end.
Proof.
  intros H. by_rules H.
  - exact H.
  - left. destruct (isinstance_Exception x); now split.
  - right. left. exists e. cbn. repeat split; try assumption.
    do 3 f_equal. lia.
  - cbn. split; [lia|]. now exists e.
  - right. right. exists e. cbn. repeat split; try assumption.
    destruct (delay_for_cases c (Z.of_nat a)) as [[_ Hv] | [_ Hv]];
      rewrite Hv in Hd; [discriminate | injection Hd as <-; now left].
  - right. right. exists e. cbn. repeat split; try assumption.
    unfold sleep_refusal in Hs.
    destruct (py_lt _ 0); [injection Hs as <-; now right|].
    destruct (py_lt sleep_limit _); [injection Hs as <-; now left | discriminate].
  - destruct (attempts_counts _ _ _ _ _ Hrec) as [Hn _].
    rewrite invocations_app. cbn [retry_events invocations Nat.add].
    replace (S (invocations t) - 1)%nat with (S (invocations t - 1)) by lia.
    replace (a + S (invocations t))%nat with (S a + invocations t)%nat by lia.
    destruct r as [[v|last]|x]; cbn in IH |- *;
      rewrite <- !(script_after_retry c w); exact IH.
Qed.

(** The events of a walk end with its last invocation and what the
    iteration logs after it; before it there is one sleep for each
    invocation. *)
Lemma attempts_last_invocation a (w : World T) r w' t :
  attempts c func_name a w r w' t ->
  exists pre logs,
    t = (pre ++ Invoked :: logs)%list /\
    invocations pre = (invocations t - 1)%nat /\
    List.length (sleeps pre) = (invocations t - 1)%nat /\
    (forall x, script w (invocations t - 1) = Exc x ->
               (forall e, x <> ExGoogleAds e) ->
               r = Exc x /\
               logs = if isinstance_Exception x
                      then [Errored (LogUnexpected x)] else []) /\
    (forall e, script w (invocations t - 1) = Exc (ExGoogleAds e) ->
               _is_retryable_error e = Val false ->
               r = Exc (ExAPIError
                          {| message := ("Google Ads API error in " ++ func_name)%string;
                             original_error := Some e;
                             context := kw_attempt (Z.of_nat (a + invocations t));
                             cause := Some e |}) /\
               logs = [Warned (LogNonRetryable e)]).
Proof.
  intros H. by_rules H.
  - exists [], []. cbn.
    split; [reflexivity|]. split; [reflexivity|]. split; [reflexivity|].
    split; intros; congruence.
  - exists [], (if isinstance_Exception x then [Errored (LogUnexpected x)] else []).
    assert (Hn : invocations
                   (Invoked :: (if isinstance_Exception x
                                then [Errored (LogUnexpected x)] else [])) = 1%nat)
      by now destruct (isinstance_Exception x).
    rewrite Hn. cbn [Nat.sub].
    split; [reflexivity|]. split; [reflexivity|]. split; [reflexivity|].
    split.
    + intros x' Hx' _. rewrite H in Hx'. injection Hx' as <-. now split.
    + intros e He _. rewrite H in He. injection He as ->. now elim (Hx e).
  - exists [], [Warned (LogNonRetryable e)]. cbn.
    split; [reflexivity|]. split; [reflexivity|]. split; [reflexivity|].
    split.
    + intros x Hx Hne. rewrite H in Hx. injection Hx as <-. now elim (Hne e).
    + intros e' He' _. rewrite H in He'. injection He' as <-.
      split; [|reflexivity]. do 4 f_equal. lia.
  - exists [], []. cbn.
    split; [reflexivity|]. split; [reflexivity|]. split; [reflexivity|].
    split.
    + intros x Hx Hne. rewrite H in Hx. injection Hx as <-. now elim (Hne e).
    + intros e' He' Hf. rewrite H in He'. injection He' as <-. congruence.
  - exists [], []. cbn.
    split; [reflexivity|]. split; [reflexivity|]. split; [reflexivity|].
    split.
    + intros x' Hx Hne. rewrite H in Hx. injection Hx as <-. now elim (Hne e).
    + intros e' He' Hf. rewrite H in He'. injection He' as <-. congruence.
  - eexists [], [_]. cbn.
    split; [reflexivity|]. split; [reflexivity|]. split; [reflexivity|].
    split.
    + intros x' Hx Hne. rewrite H in Hx. injection Hx as <-. now elim (Hne e).
    + intros e' He' Hf. rewrite H in He'. injection He' as <-. congruence.
  - destruct (attempts_counts _ _ _ _ _ Hrec) as [Hn _].
    destruct IH as (pre & logs & -> & Hpi & Hps & Hun & Hfa).
    exists (retry_events c (Z.of_nat a) e
              (slept_delay c (Z.of_nat a) (after_call w)) ++ pre)%list, logs.
    rewrite !invocations_app in *. cbn [retry_events invocations Nat.add] in *.
    replace (S (invocations pre + S (invocations logs)) - 1)%nat
      with (S (invocations pre + S (invocations logs) - 1)) by lia.
    replace (a + S (invocations pre + S (invocations logs)))%nat
      with (S a + (invocations pre + S (invocations logs)))%nat by lia.
    split; [now rewrite <- app_assoc|].
    split; [cbn; lia|].
    split; [rewrite sleeps_app, length_app; cbn; lia|].
    split.
    + intros x Hx Hne. apply Hun; [|exact Hne].
      now rewrite script_after_retry.
    + intros e' He' Hf. apply Hfa; [|exact Hf].
      now rewrite script_after_retry.
Qed.

End Outcomes.

(** * Every run, read against the script *)

Section Runs.

Context {T : Type}.
Variable c : RetryConfig.
Variable func_name : string.

Lemma conclude_quiet (r : res (loop_exit T)) :
  invocations (snd (conclude c func_name r)) = 0%nat /\
  sleeps (snd (conclude c func_name r)) = [].
Proof. destruct r as [[v|last]|x]; repeat split. Qed.

Lemma wrapper_of_loop (w : World T) :
  wrapper c func_name w
  = match for_attempts c func_name (range (max_attempts c)) None w with
    | (r, w', t) =>
        (fst (conclude c func_name r), w',
         (t ++ snd (conclude c func_name r))%list)
    end.
Proof.
  unfold wrapper, bind.
  destruct (for_attempts c func_name (range (max_attempts c)) None w)
    as [[[[v|last]|x] w'] t]; cbn; rewrite ?app_nil_r; reflexivity.
Qed.

(** A run is the end of line 81 alone when there is no budget, and a walk
    through the loop from attempt 0 followed by lines 79-85 otherwise. *)
Lemma wrapper_cases (w : World T) :
  ((max_attempts c <= 0)%Z /\
   wrapper c func_name w
   = (fst (conclude (T := T) c func_name (Val (Finished None))), w,
      snd (conclude (T := T) c func_name (Val (Finished None))))) \/
  ((0 < max_attempts c)%Z /\
   exists r w' t,
     attempts c func_name 0 w r w' t /\
     (invocations t <= Z.to_nat (max_attempts c))%nat /\
     wrapper c func_name w
     = (fst (conclude c func_name r), w',
        (t ++ snd (conclude c func_name r))%list)).
Proof.
  destruct (Z_le_gt_dec (max_attempts c) 0) as [Hle | Hgt].
  - left. split; [exact Hle|]. rewrite wrapper_of_loop. unfold range.
    replace (Z.to_nat (max_attempts c)) with 0%nat by lia. reflexivity.
  - right. split; [lia|]. rewrite wrapper_of_loop, range_attempts_from.
    pose proof (for_attempts_attempts c func_name (Z.to_nat (max_attempts c))
                  0 None w ltac:(lia) ltac:(cbn [Nat.add]; lia)) as Hrel.
    pose proof (loop_paced c func_name (Z.to_nat (max_attempts c)) 0 None w
                  ltac:(cbn [Nat.add]; lia)) as Hpaced.
    destruct (for_attempts c func_name _ None w) as [[r w'] t].
    exists r, w', t. repeat split; [exact Hrel | apply Hpaced].
Qed.

(** Everything the later theorems read off a run, in one statement. *)
Lemma run_anatomy (w : World T) :
  match run c func_name w with
  | (r, t) =>
      (Z.of_nat (invocations t) <= Z.max 0 (max_attempts c))%Z /\
      List.length (sleeps t) = (invocations t - 1)%nat /\
      retryable_failures (invocations t - 1) w /\
      (jitter c = false ->
       sleeps t = map (fun k => backoff_delay c (Z.of_nat k))
                      (seq 0 (List.length (sleeps t)))) /\
      match r with
      | Val v => (1 <= invocations t)%nat /\ script w (invocations t - 1) = Val v
      | Exc x =>
          ((1 <= invocations t)%nat /\
           script w (invocations t - 1) = Exc x /\
           forall e, x <> ExGoogleAds e) \/
          ((1 <= invocations t)%nat /\
           exists e,
             script w (invocations t - 1) = Exc (ExGoogleAds e) /\
             _is_retryable_error e = Val false /\
             x = ExAPIError
                   {| message := ("Google Ads API error in " ++ func_name)%string;
                      original_error := Some e;
                      context := kw_attempt (Z.of_nat (invocations t));
                      cause := Some e |}) \/
          (Z.of_nat (invocations t) = Z.max 0 (max_attempts c) /\
           exists last,
             x = ExAPIError
                   {| message := ("Max retries exceeded for " ++ func_name)%string;
                      original_error := last;
                      context := kw_max_attempts (max_attempts c);
                      cause := last |} /\
             ((invocations t = 0%nat /\ last = None) \/
              ((1 <= invocations t)%nat /\
               exists e, last = Some e /\
                         script w (invocations t - 1) = Exc (ExGoogleAds e) /\
                         _is_retryable_error e = Val true))) \/
          ((1 <= invocations t)%nat /\
           (exists e, script w (invocations t - 1) = Exc (ExGoogleAds e) /\
                      _is_retryable_error e = Val true) /\
           (x = ExOverflowError \/ x = ExValueError))
      end
  end.
Proof.
  unfold run.
  destruct (wrapper_cases w) as [[Hle ->] | (Hgt & r & w' & t & Hrel & Hbound & ->)].
  - cbn. split; [lia|]. split; [reflexivity|].
    split; [intros i Hi; lia|]. split; [reflexivity|].
    right. right. left. split; [lia|]. exists None. split; [reflexivity|]. now left.
  - destruct (conclude_quiet r) as (Hq1 & Hq2).
    destruct (attempts_counts c func_name _ _ _ _ _ Hrel) as [Hn Hs].
    pose proof (attempts_script c func_name _ _ _ _ _ Hrel) as Hf.
    pose proof (fun Hj => attempts_schedule c func_name _ _ _ _ _ Hj Hrel) as Hsch.
    pose proof (attempts_result c func_name _ _ _ _ _ Hrel) as Hres.
    assert (Hinv : invocations (t ++ snd (conclude c func_name r)) = invocations t)
      by (rewrite invocations_app, Hq1; lia).
    assert (Hsl : sleeps (t ++ snd (conclude c func_name r)) = sleeps t)
      by (rewrite sleeps_app, Hq2; apply app_nil_r).
    rewrite Hinv, Hsl.
    split; [lia|]. split; [exact Hs|]. split; [exact Hf|]. split; [exact Hsch|].
    destruct r as [[v|last]|x]; cbn [conclude fst].
    + now split.
    + destruct Hres as (Hmax & e & -> & Hcall & Hretry).
      right. right. left. split; [cbn [Nat.add] in Hmax; lia|].
      exists (Some e). split; [reflexivity|]. right. split; [exact Hn|].
      now exists e.
    + destruct Hres as [[Hcall Hx] | [(e & Hcall & Hfatal & ->)
                                    | (e & Hcall & Hretry & Hx)]].
      * left. now repeat split.
      * right. left. split; [exact Hn|]. now exists e.
      * right. right. right. split; [exact Hn|]. split; [now exists e | exact Hx].
Qed.

(** The last invocation of a run and what follows it. *)
Lemma run_last_invocation (w : World T) :
  (0 < invocations (snd (run c func_name w)))%nat ->
  match run c func_name w with
  | (out, t) =>
      exists pre logs r,
        (t = (pre ++ Invoked :: logs) ++ snd (conclude c func_name r))%list /\
        out = fst (conclude c func_name r) /\
        invocations pre = (invocations t - 1)%nat /\
        List.length (sleeps pre) = (invocations t - 1)%nat /\
        (forall x, script w (invocations t - 1) = Exc x ->
                   (forall e, x <> ExGoogleAds e) ->
                   r = Exc x /\
                   logs = if isinstance_Exception x
                          then [Errored (LogUnexpected x)] else []) /\
        (forall e, script w (invocations t - 1) = Exc (ExGoogleAds e) ->
                   _is_retryable_error e = Val false ->
                   r = Exc (ExAPIError
                              {| message := ("Google Ads API error in " ++ func_name)%string;
                                 original_error := Some e;
                                 context := kw_attempt (Z.of_nat (invocations t));
                                 cause := Some e |}) /\
                   logs = [Warned (LogNonRetryable e)])
  end.
Proof.
  unfold run.
  destruct (wrapper_cases w) as [[Hle ->] | (Hgt & r & w' & t & Hrel & Hbound & ->)].
  - cbn. lia.
  - intros _. cbn [snd].
    destruct (conclude_quiet r) as (Hq1 & Hq2).
    assert (Hinv : invocations (t ++ snd (conclude c func_name r)) = invocations t)
      by (rewrite invocations_app, Hq1; lia).
    rewrite Hinv.
    destruct (attempts_last_invocation c func_name _ _ _ _ _ Hrel)
      as (pre & logs & -> & Hpi & Hps & Hun & Hfa).
    exists pre, logs, r. cbn [Nat.add] in Hfa.
    split; [reflexivity|]. split; [reflexivity|]. split; [exact Hpi|].
    split; [exact Hps|]. split; [exact Hun | exact Hfa].
Qed.

Ltac open_run H :=
  let A := fresh "A" in
  pose proof (run_anatomy H) as A;
  destruct (run c func_name H) as [out trace]; cbn [fst snd] in *;
  destruct A as (Hbound & Hcount & Hfail & Hsched & Hres).

(** X1: no [GoogleAdsException] ever leaves the wrapper: each one is
    retried or turned into an [APIError]. *)
Theorem wrapper_never_raises_GoogleAdsException (w : World T)
    (e : GoogleAdsException) :
  fst (run c func_name w) <> Exc (ExGoogleAds e).
Proof.
  open_run w. intros ->.
  destruct Hres as [(_ & _ & Hx) | [(_ & e' & _ & _ & Hx)
                   | [(_ & l & Hx & _) | (_ & _ & [Hx | Hx])]]];
    [now apply (Hx e) | discriminate | discriminate | discriminate | discriminate].
Qed.

(** X2: a value returned by the wrapper is the value the operation
    returned at its last invocation; every invocation before it raised a
    retryable [GoogleAdsException], and the budget was kept. *)
Theorem returned_value_is_the_operations (w : World T) (v : T)
    (t : list event) :
  run c func_name w = (Val v, t) ->
  (1 <= invocations t)%nat /\
  script w (invocations t - 1) = Val v /\
  retryable_failures (invocations t - 1) w /\
  (Z.of_nat (invocations t) <= max_attempts c)%Z.
Proof.
  intros Hrun. open_run w. injection Hrun as -> ->.
  destruct Hres as [Hn Hv]. repeat split; try assumption. lia.
Qed.

(** X3: an exception other than [APIError] that leaves the wrapper comes
    from one of two places.  Either the operation raised it, at its last
    invocation; or it is the [OverflowError] of line 61 or the
    [ValueError] or [OverflowError] of [time.sleep], raised while the
    retry of the last invocation, which failed with a retryable error,
    was prepared.  In both cases every invocation before the last raised
    a retryable [GoogleAdsException]. *)
Theorem escaping_exception_origin (w : World T) (x : exn) (t : list event) :
  run c func_name w = (Exc x, t) -> (forall a, x <> ExAPIError a) ->
  (1 <= invocations t)%nat /\
  retryable_failures (invocations t - 1) w /\
  (script w (invocations t - 1) = Exc x \/
   ((x = ExOverflowError \/ x = ExValueError) /\
    exists e, script w (invocations t - 1) = Exc (ExGoogleAds e) /\
              _is_retryable_error e = Val true)).
Proof.
  intros Hrun Hx. open_run w. injection Hrun as -> ->.
  destruct Hres as [(Hn & Hcall & _) | [(_ & e & _ & _ & ->)
                   | [(_ & l & -> & _) | (Hn & He & Hkind)]]];
    [ | now elim (Hx _ eq_refl) | now elim (Hx _ eq_refl) | ].
  - split; [exact Hn|]. split; [exact Hfail|]. now left.
  - split; [exact Hn|]. split; [exact Hfail|]. right. now split.
Qed.

(** X4: when the operation itself never raises an [APIError], an
    [APIError] leaving the wrapper is one of two.  Either its reason is
    non_retryable: the last invocation raised an error that the classifier
    refuses, which is its original error, and its attempt count is the
    number of invocations.  Or its reason is exhausted: the invocations
    are as many as the budget, every one of them raised a retryable error,
    and the original error is that of the last one ([None] without any
    invocation). *)
Theorem api_error_cases (w : World T) (a : APIError) (t : list event) :
  (forall i a', script w i <> Exc (ExAPIError a')) ->
  run c func_name w = (Exc (ExAPIError a), t) ->
  (reason a = non_retryable /\
   (1 <= invocations t)%nat /\
   attempt_count a = Z.of_nat (invocations t) /\
   exists e, script w (invocations t - 1) = Exc (ExGoogleAds e) /\
             _is_retryable_error e = Val false /\
             original_error a = Some e /\ cause a = Some e) \/
  (reason a = exhausted /\
   attempt_count a = max_attempts c /\
   Z.of_nat (invocations t) = Z.max 0 (max_attempts c) /\
   retryable_failures (invocations t) w /\
   cause a = original_error a /\
   ((invocations t = 0%nat /\ original_error a = None) \/
    (exists e, script w (invocations t - 1) = Exc (ExGoogleAds e) /\
               original_error a = Some e))).
Proof.
  intros Hop Hrun. open_run w. injection Hrun as -> ->.
  destruct Hres as [(_ & Hcall & _) | [(Hn & e & Hcall & Hfatal & Hx)
                   | [(Hn & l & Hx & Hlast) | (_ & _ & [Hx | Hx])]]];
    try discriminate.
  - now elim (Hop _ _ Hcall).
  - left. injection Hx as ->. cbn. repeat split; try assumption.
    now exists e.
  - right. injection Hx as ->. cbn. repeat split; try assumption.
    + destruct Hlast as [[H0 _] | (H1 & e & _ & Hcall & Hretry)].
      * intros i Hi. lia.
      * intros i Hi.
        destruct (Nat.eq_dec i (invocations t - 1)) as [-> | Hne];
          [now exists e | apply Hfail; lia].
    + destruct Hlast as [[H0 ->] | (H1 & e & -> & Hcall & _)];
        [now left | right; now exists e].
Qed.

(** X5: in every run the sleeps are one less than the invocations (and
    none when nothing is invoked). *)
Theorem one_sleep_less_than_invocations (w : World T) :
  List.length (sleeps (snd (run c func_name w)))
  = (invocations (snd (run c func_name w)) - 1)%nat.
Proof. open_run w. exact Hcount. Qed.

(** X8: without jitter the delays slept in a run are the schedule of line
    61 for the attempts 0, 1, ..., one for each invocation but the last. *)
Theorem sleeps_without_jitter_follow_schedule (w : World T) :
  jitter c = false ->
  sleeps (snd (run c func_name w))
  = map (fun k => backoff_delay c (Z.of_nat k))
        (seq 0 (invocations (snd (run c func_name w)) - 1)).
Proof. intros Hj. open_run w. rewrite <- Hcount. now apply Hsched. Qed.

(** An invocation that did not raise a retryable [GoogleAdsException] is
    the last one of its run. *)
Lemma last_when_not_retried (w : World T) (j : nat) :
  (j < invocations (snd (run c func_name w)))%nat ->
  (forall e, script w j = Exc (ExGoogleAds e) ->
             _is_retryable_error e <> Val true) ->
  j = (invocations (snd (run c func_name w)) - 1)%nat.
Proof.
  intros Hj Hnot. open_run w.
  destruct (Nat.eq_dec j (invocations trace - 1)) as [-> | Hne];
    [reflexivity|].
  destruct (Hfail j ltac:(lia)) as (e & Hcall & Hretry).
  now elim (Hnot e Hcall).
Qed.

(** C3, as the code has it: when an invocation of the operation raises a
    [GoogleAdsException] that the classifier finds not retryable, the run
    ends at once: that invocation is the last one, no sleep follows it,
    and the [APIError] raised has the reason non_retryable, the error as
    its original error and cause, and as its attempt count the number of
    invocations made, [j+1] for the invocation [j] (so 1 when the first
    attempt fails). *)
Theorem non_retryable_raises_at_once (w : World T) (j : nat)
    (e : GoogleAdsException) :
  (j < invocations (snd (run c func_name w)))%nat ->
  script w j = Exc (ExGoogleAds e) -> _is_retryable_error e = Val false ->
  exists a pre,
    run c func_name w
    = (Exc (ExAPIError a), (pre ++ [Invoked; Warned (LogNonRetryable e)])%list) /\
    invocations pre = j /\ List.length (sleeps pre) = j /\
    reason a = non_retryable /\ attempt_count a = (Z.of_nat j + 1)%Z /\
    original_error a = Some e /\ cause a = Some e.
Proof.
  intros Hj Hcall Hfatal.
  assert (Hlast : j = (invocations (snd (run c func_name w)) - 1)%nat).
  { apply last_when_not_retried; [exact Hj|].
    intros e' He'. rewrite Hcall in He'. injection He' as <-. congruence. }
  pose proof (run_last_invocation w ltac:(lia)) as Hrun.
  destruct (run c func_name w) as [out t]. cbn [snd] in *.
  destruct Hrun as (pre & logs & r & -> & -> & Hpi & Hps & _ & Hfa).
  rewrite <- Hlast in *.
  destruct (Hfa e Hcall Hfatal) as [-> ->]. cbn [conclude fst snd].
  rewrite app_nil_r. eexists _, pre. split; [reflexivity|]. cbn.
  repeat split; try assumption.
  rewrite !invocations_app in *. cbn in *. lia.
Qed.

(** C5: when an invocation of the operation raises an exception that is
    not a [GoogleAdsException], that exception leaves the wrapper as it
    is, at once: the invocation is the last event but for the log record,
    whatever budget is left; no invocation and no sleep follows it. *)
Theorem unexpected_error_propagates (w : World T) (j : nat) (x : exn) :
  (j < invocations (snd (run c func_name w)))%nat ->
  script w j = Exc x -> (forall e, x <> ExGoogleAds e) ->
  exists pre,
    run c func_name w
    = (Exc x,
       (pre ++ Invoked :: (if isinstance_Exception x
                           then [Errored (LogUnexpected x)] else []))%list) /\
    invocations pre = j /\ List.length (sleeps pre) = j.
Proof.
  intros Hj Hcall Hother.
  assert (Hlast : j = (invocations (snd (run c func_name w)) - 1)%nat).
  { apply last_when_not_retried; [exact Hj|].
    intros e' He'. rewrite Hcall in He'. injection He' as ->.
    now elim (Hother e'). }
  pose proof (run_last_invocation w ltac:(lia)) as Hrun.
  destruct (run c func_name w) as [out t]. cbn [snd] in *.
  destruct Hrun as (pre & logs & r & -> & -> & Hpi & Hps & Hun & _).
  rewrite <- Hlast in *.
  destruct (Hun x Hcall Hother) as [-> ->]. cbn [conclude fst snd].
  rewrite app_nil_r. exists pre. now repeat split.
Qed.

End Runs.

(** * Jitter, randomness and time *)

Section Timing.

Context {T : Type}.
Variable c : RetryConfig.
Variable func_name : string.

Lemma slept_delay_without_jitter (a : Z) (w : World T) :
  jitter c = false -> slept_delay c a w = backoff_delay c a.
Proof. intros Hj. unfold slept_delay. now rewrite Hj. Qed.

Lemma loop_ignores_entropy (m : nat) :
  forall (a : nat) last (w1 w2 : World T),
    jitter c = false -> (forall i, script w1 i = script w2 i) ->
    match for_attempts c func_name (attempts_from a m) last w1,
          for_attempts c func_name (attempts_from a m) last w2 with
    | (r1, _, t1), (r2, _, t2) => r1 = r2 /\ t1 = t2
    end.
Proof.
  induction m as [|m IH]; intros a last w1 w2 Hj Hsame; [now split|].
  rewrite attempts_from_S.
  pose proof (Hsame 0%nat) as H0.
  destruct (script w1 0) as [v | x] eqn:H1; symmetry in H0.
  - rewrite (step_return c func_name _ _ last w1 v H1),
      (step_return c func_name _ _ last w2 v H0). now split.
  - destruct x as [e | a' | attr | | | u].
    + pose proof (_is_retryable_error_value e) as Hv.
      destruct (code_verdict e || message_verdict e).
      * destruct (Z.eq_dec (Z.of_nat a) (max_attempts c - 1)) as [Ha | Ha].
        -- rewrite (step_last c func_name _ _ last w1 e H1 Hv Ha),
             (step_last c func_name _ _ last w2 e H0 Hv Ha). now split.
        -- destruct (delay_for_cases c (Z.of_nat a)) as [[_ Hd] | [_ Hd]].
           ++ pose proof (slept_delay_without_jitter (Z.of_nat a)
                            (after_call w1) Hj) as Hs1.
              pose proof (slept_delay_without_jitter (Z.of_nat a)
                            (after_call w2) Hj) as Hs2.
              destruct (sleep_refusal (backoff_delay c (Z.of_nat a)))
                as [x|] eqn:Hs.
              ** rewrite (step_refused c func_name _ _ last w1 e x H1 Hv Ha Hd),
                   (step_refused c func_name _ _ last w2 e x H0 Hv Ha Hd)
                   by (rewrite ?Hs1, ?Hs2; exact Hs).
                 rewrite Hs1, Hs2. now split.
              ** rewrite (step_retry c func_name _ _ last w1 e H1 Hv Ha Hd),
                   (step_retry c func_name _ _ last w2 e H0 Hv Ha Hd)
                   by (rewrite ?Hs1, ?Hs2; exact Hs).
                 specialize (IH (S a) (Some e) (after_delay c (after_call w1))
                                (after_delay c (after_call w2)) Hj).
                 rewrite Hs1, Hs2.
                 destruct (for_attempts c func_name _ (Some e)
                             (after_delay c (after_call w1))) as [[r1 w1'] t1].
                 destruct (for_attempts c func_name _ (Some e)
                             (after_delay c (after_call w2))) as [[r2 w2'] t2].
                 destruct IH as [-> ->]; [|now split].
                 intros i. now rewrite !script_after_retry.
           ++ rewrite (step_overflow c func_name _ _ last w1 e _ H1 Hv Ha Hd),
                (step_overflow c func_name _ _ last w2 e _ H0 Hv Ha Hd).
              now split.
      * rewrite (step_fatal c func_name _ _ last w1 e H1 Hv),
          (step_fatal c func_name _ _ last w2 e H0 Hv). now split.
    + rewrite (step_unexpected c func_name _ _ last w1 _ H1),
        (step_unexpected c func_name _ _ last w2 _ H0) by discriminate.
      now split.
    + rewrite (step_unexpected c func_name _ _ last w1 _ H1),
        (step_unexpected c func_name _ _ last w2 _ H0) by discriminate.
      now split.
    + rewrite (step_unexpected c func_name _ _ last w1 _ H1),
        (step_unexpected c func_name _ _ last w2 _ H0) by discriminate.
      now split.
    + rewrite (step_unexpected c func_name _ _ last w1 _ H1),
        (step_unexpected c func_name _ _ last w2 _ H0) by discriminate.
      now split.
    + rewrite (step_unexpected c func_name _ _ last w1 _ H1),
        (step_unexpected c func_name _ _ last w2 _ H0) by discriminate.
      now split.
Qed.

(** X9: without jitter a run does not depend on the random source: two
    worlds in which the operation behaves alike give the same outcome and
    the same events, delays included. *)
Theorem run_without_jitter_ignores_entropy (w1 w2 : World T) :
  jitter c = false -> (forall i, script w1 i = script w2 i) ->
  run c func_name w1 = run c func_name w2.
Proof.
  intros Hj Hsame. rewrite !run_of_loop, range_attempts_from.
  pose proof (loop_ignores_entropy (Z.to_nat (max_attempts c)) 0 None w1 w2
                Hj Hsame) as H.
  destruct (for_attempts c func_name _ None w1) as [[r1 w1'] t1].
  destruct (for_attempts c func_name _ None w2) as [[r2 w2'] t2].
  now destruct H as [-> ->].
Qed.

Lemma backoff_delay_from_base (i : Z) :
  0 <= base_delay c -> base_delay c <= max_delay c ->
  1 <= backoff_factor c -> (0 <= i)%Z ->
  base_delay c <= backoff_delay c i.
Proof.
  intros Hb Hbm Hf Hi. unfold backoff_delay. rewrite py_min_Qmin.
  apply Q.min_glb; [|exact Hbm].
  rewrite <- (Qmult_1_r (base_delay c)) at 1.
  rewrite !(Qmult_comm (base_delay c)).
  apply Qmult_le_compat_r; [|exact Hb].
  now apply Qpower_1_le.
Qed.

Lemma each_sleep_capped (w : World T) (k : nat) (d : Q) :
  0 <= max_delay c ->
  nth_error (sleeps (snd (run c func_name w))) k = Some d ->
  d <= max_delay c.
Proof.
  intros Hmax Hk.
  destruct (run_sleeps c func_name w k d Hk) as (r & Hlo & Hhi & ->).
  pose proof (py_min_le_r (base_delay c * backoff_factor c ^ Z.of_nat k)
                (max_delay c)) as Hcap.
  fold (backoff_delay c (Z.of_nat k)) in Hcap.
  set (D := backoff_delay c (Z.of_nat k)) in *.
  destruct (jitter c); [unfold with_jitter; nra | exact Hcap].
Qed.

Lemma sum_capped (l : list Q) (M : Q) :
  (forall d, In d l -> d <= M) ->
  fold_right Qplus 0 l <= inject_Z (Z.of_nat (List.length l)) * M.
Proof.
  induction l as [|d l IH]; intros H.
  - cbn [fold_right List.length]. change (inject_Z (Z.of_nat 0)) with 0. lra.
  - cbn [fold_right List.length].
    rewrite Nat2Z.inj_succ. unfold Z.succ. rewrite inject_Z_plus.
    pose proof (H d (or_introl eq_refl)) as Hd.
    specialize (IH (fun d' Hin => H d' (or_intror Hin))).
    change (inject_Z 1) with 1. lra.
Qed.

(** X10: the time slept in a run, in all, is at most
    [(max_attempts - 1) * max_delay], with jitter or without, whatever the
    operation does (for [max_attempts >= 1] and [max_delay >= 0]). *)
Theorem total_sleep_bounded (w : World T) :
  (1 <= max_attempts c)%Z -> 0 <= max_delay c ->
  total_sleep (snd (run c func_name w))
  <= inject_Z (max_attempts c - 1) * max_delay c.
Proof.
  intros Hmax Hdelay. unfold total_sleep.
  apply Qle_trans with
    (inject_Z (Z.of_nat (List.length (sleeps (snd (run c func_name w)))))
     * max_delay c).
  - apply sum_capped. intros d Hin.
    apply In_nth_error in Hin as [k Hk].
    now apply (each_sleep_capped w k d).
  - apply Qmult_le_compat_r; [|exact Hdelay].
    rewrite <- Zle_Qle.
    pose proof (run_anatomy c func_name w) as A.
    destruct (run c func_name w) as [r t]. cbn [snd].
    destruct A as (Hbound & Hcount & _). lia.
Qed.

End Timing.

(** * More on the schedule and on the classifier *)

Section Further.

(** X13: for a config with [0 <= base_delay <= max_delay] and
    [backoff_factor >= 1] the delay of the first attempt is [base_delay],
    and the delay of no attempt is below it. *)
Theorem backoff_delay_starts_at_base (c : RetryConfig) (i : Z) :
  0 <= base_delay c -> base_delay c <= max_delay c ->
  1 <= backoff_factor c -> (0 <= i)%Z ->
  backoff_delay c 0 == base_delay c /\ base_delay c <= backoff_delay c i.
Proof.
  intros Hb Hbm Hf Hi. split.
  - unfold backoff_delay. rewrite py_min_Qmin.
    change (backoff_factor c ^ 0) with 1. rewrite Qmult_1_r.
    now apply Q.min_l.
  - now apply backoff_delay_from_base.
Qed.

Lemma lower_app (a b : string) :
  PyStr.lower (a ++ b) = (PyStr.lower a ++ PyStr.lower b)%string.
Proof. induction a as [|x a IH]; simpl; [reflexivity | now rewrite IH]. Qed.

Lemma string_app_assoc (a b c : string) :
  ((a ++ b) ++ c = a ++ b ++ c)%string.
Proof. induction a as [|x a IH]; simpl; [reflexivity | now rewrite IH]. Qed.

Lemma occurs_in_trans (a b c : string) :
  Spec.occurs_in a b -> Spec.occurs_in b c -> Spec.occurs_in a c.
Proof.
  intros (p1 & q1 & ->) (p2 & q2 & ->).
  exists (p2 ++ p1)%string, (q1 ++ q2)%string.
  now rewrite !string_app_assoc.
Qed.

Lemma occurs_in_lower (a b : string) :
  Spec.occurs_in a b -> Spec.occurs_in (PyStr.lower a) (PyStr.lower b).
Proof.
  intros (p & q & ->). exists (PyStr.lower p), (PyStr.lower q).
  now rewrite !lower_app.
Qed.

(** X14: the verdict of the classifier does not depend on the case of the
    letters: two errors whose codes are the same up to case (or both
    absent) and whose messages are the same up to case get the same
    verdict. *)
Theorem classification_ignores_case (e e' : GoogleAdsException) :
  match Spec.code_of e, Spec.code_of e' with
  | Some ec, Some ec' => Spec.same_ignoring_case ec ec'
  | None, None => True
  | _, _ => False
  end ->
  Spec.same_ignoring_case (exc_str e) (exc_str e') ->
  _is_retryable_error e = _is_retryable_error e'.
Proof.
  intros Hcode Hmsg. rewrite !_is_retryable_error_value.
  unfold code_verdict, message_verdict. unfold Spec.same_ignoring_case in *.
  rewrite Hmsg.
  destruct (Spec.code_of e) as [ec|], (Spec.code_of e') as [ec'|];
    try contradiction; [|reflexivity].
  now rewrite <- (upper_lower ec), Hcode, upper_lower.
Qed.

(** X15: text around the code or around the message does not undo a
    retryable verdict: when the code of [e] occurs in the code of [e'] and
    the message of [e] occurs in the message of [e'], [e'] is retryable
    whenever [e] is. *)
Theorem classification_survives_context (e e' : GoogleAdsException) :
  (forall ec, Spec.code_of e = Some ec ->
     exists ec', Spec.code_of e' = Some ec' /\ Spec.occurs_in ec ec') ->
  Spec.occurs_in (exc_str e) (exc_str e') ->
  _is_retryable_error e = Val true ->
  _is_retryable_error e' = Val true.
Proof.
  intros Hcode Hmsg. rewrite !_is_retryable_error_value.
  intros [= H]. f_equal. apply verdict_iff. apply verdict_iff in H.
  destruct H as [(ec & code & part & Hec & Hin & Hocc & Hsame) | (p & Hin & Hocc)].
  - left. destruct (Hcode ec Hec) as (ec' & Hec' & Hsub).
    exists ec', code, part. repeat split; try assumption.
    now apply occurs_in_trans with ec.
  - right. exists p. split; [exact Hin|].
    apply occurs_in_trans with (1 := Hocc). now apply occurs_in_lower.
Qed.

End Further.

(** * Concrete runs *)

Module Examples.

Lemma classify_examples :
  _is_retryable_error rate_exceeded = Val true /\
  _is_retryable_error not_authorized = Val false /\
  _is_retryable_error timed_out = Val true.
Proof. repeat split. Qed.





(** The example of the specification: three attempts, the delays 1.0 and
    2.0, and the exhausted failure. *)
Lemma plain_run :
  match run plain_config "fetch" always_failing with
  | (Exc (ExAPIError a), t) =>
      reason a = exhausted /\ invocations t = 3%nat /\ sleeps t = [1; 2]
  | _ => False
  end.
Proof. repeat split. Qed.



(** C2: the code "internal_error" with a dotless i is retryable for the
    classifier, since its upper case is INTERNAL_ERROR; but no code of
    the allow-list occurs in it when case is left aside, and its message
    has none of the phrases. *)
Lemma dotless_i_is_classified_retryable :
  Unicode._is_retryable_error (Some Unicode.dotless_internal_error) []
  = Some true /\
  Unicode.spec_retryable (Some Unicode.dotless_internal_error) []
  = Some false.
Proof. split; reflexivity. Qed.

(** C2, as the code has it, at a rate-limit error. *)
Lemma classify_retryable_iff_witness :
  (_is_retryable_error rate_exceeded = Val true <-> Spec.retryable rate_exceeded) /\
  (_is_retryable_error rate_exceeded = Val false <-> ~ Spec.retryable rate_exceeded).
Proof.
  apply (classify_retryable_iff rate_exceeded).
  intros ec [= <-]. reflexivity.
Defined.

(** C9 at an error without the [error] attribute. *)
Lemma classify_without_code_witness :
  _is_retryable_error timed_out = Val (message_verdict timed_out) /\
  (_is_retryable_error timed_out = Val true <-> Spec.message_matches timed_out).
Proof.
  apply (classify_without_code timed_out). left. reflexivity.
Defined.

(** C3: the second attempt fails for good and the count reported is 2. *)
Lemma non_retryable_count_is_not_one :
  ~ non_retryable_count_is_one default_config
      (failing_then 1 (Exc (ExGoogleAds not_authorized))).
Proof.
  intros H. specialize (H _ _ eq_refl eq_refl). discriminate H.
Qed.

(** C3, as the code has it, at a failure on the second attempt. *)
Lemma non_retryable_raises_at_once_witness :
  exists a pre,
    run default_config "fetch" (failing_then 1 (Exc (ExGoogleAds not_authorized)))
    = (Exc (ExAPIError a),
       (pre ++ [Invoked; Warned (LogNonRetryable not_authorized)])%list) /\
    invocations pre = 1%nat /\ List.length (sleeps pre) = 1%nat /\
    reason a = non_retryable /\ attempt_count a = (Z.of_nat 1 + 1)%Z /\
    original_error a = Some not_authorized /\ cause a = Some not_authorized.
Proof.
  apply (non_retryable_raises_at_once default_config "fetch"
           (failing_then 1 (Exc (ExGoogleAds not_authorized))) 1 not_authorized).
  - vm_compute. lia.
  - reflexivity.
  - reflexivity.
Defined.

(** C5 at an unexpected error on the second attempt. *)
Lemma unexpected_error_propagates_witness :
  exists pre,
    run default_config "fetch" (failing_then 1 (Exc value_error))
    = (Exc value_error,
       (pre ++ Invoked :: (if isinstance_Exception value_error
                           then [Errored (LogUnexpected value_error)]
                           else []))%list) /\
    invocations pre = 1%nat /\ List.length (sleeps pre) = 1%nat.
Proof.
  apply (unexpected_error_propagates default_config "fetch"
           (failing_then 1 (Exc value_error)) 1 value_error).
  - vm_compute. lia.
  - reflexivity.
  - discriminate.
Defined.





(** C8 at the default config and an operation that always fails. *)
Lemma attempts_bounded_and_sleeps_between_witness :
  match run default_config "fetch" always_failing with
  | (_, t) =>
      (Z.of_nat (invocations t) <= max_attempts default_config)%Z /\
      sleeps_between_invocations t
  end.
Proof.
  apply (attempts_bounded_and_sleeps_between default_config "fetch" always_failing).
  discriminate.
Defined.

(** C10 at [max_attempts = 0]. *)
Lemma no_attempt_without_budget_witness :
  exists t,
    run empty_config "fetch" always_failing
    = (Exc (ExAPIError
              {| message := "Max retries exceeded for fetch"%string;
                 original_error := None;
                 context := kw_max_attempts 0;
                 cause := None |}), t) /\
    invocations t = 0%nat /\ sleeps t = [].
Proof.
  apply (no_attempt_without_budget empty_config "fetch" always_failing).
  discriminate.
Defined.

(** C4: after attempt 6 of [patient_config] the uncapped delay is 64 and
    its band starts at 32, but the delay slept is 15, half of the cap. *)
Lemma sleeps_not_in_uncapped_band :
  ~ sleeps_in_uncapped_band patient_config always_failing.
Proof.
  intros H.
  destruct (H 6%nat _ eq_refl) as [(t & Hlo & _ & Heq) _].
  assert (Hx : base_delay patient_config * backoff_factor patient_config ^ Z.of_nat 6
               == 64) by reflexivity.
  match type of Heq with
  | ?d == _ => assert (Hd : d == 15) by (vm_compute; reflexivity)
  end.
  rewrite Hd, Hx in Heq. lra.
Qed.

(** C4, as the code has it, at the delay slept after attempt 6. *)
Lemma jittered_sleep_in_band_witness :
  exists d,
    nth_error (sleeps (snd (run patient_config "fetch" always_failing))) 6 = Some d /\
    in_closed_scaled_interval (1 # 2) 1 (backoff_delay patient_config (Z.of_nat 6)) d /\
    d <= max_delay patient_config.
Proof.
  eexists. split; [reflexivity|].
  apply (jittered_sleep_in_band patient_config "fetch" always_failing 6).
  - reflexivity.
  - vm_compute. discriminate.
  - reflexivity.
Defined.

End Examples.

(** * Further concrete runs *)

Module FurtherExamples.

(** X2 at the run that succeeds at the third attempt. *)
Lemma returned_value_is_the_operations_witness :
  (1 <= invocations (snd third_time_lucky))%nat /\
  script (failing_then 2 (Val 42%nat)) (invocations (snd third_time_lucky) - 1)
  = Val 42%nat /\
  retryable_failures (invocations (snd third_time_lucky) - 1)
                     (failing_then 2 (Val 42%nat)) /\
  (Z.of_nat (invocations (snd third_time_lucky)) <= max_attempts default_config)%Z.
Proof.
  apply (returned_value_is_the_operations default_config "fetch"
           (failing_then 2 (Val 42%nat)) 42%nat (snd third_time_lucky)).
  reflexivity.
Defined.

(** X3 at the run that meets a [ValueError] at the second attempt. *)
Lemma escaping_exception_origin_witness :
  (1 <= invocations (snd second_attempt_crashes))%nat /\
  retryable_failures (invocations (snd second_attempt_crashes) - 1)
                     (failing_then 1 (Exc value_error)) /\
  (script (failing_then 1 (Exc value_error))
          (invocations (snd second_attempt_crashes) - 1)
   = Exc value_error \/
   ((value_error = ExOverflowError \/ value_error = ExValueError) /\
    exists e,
      script (failing_then 1 (Exc value_error))
             (invocations (snd second_attempt_crashes) - 1)
      = Exc (ExGoogleAds e) /\
      _is_retryable_error e = Val true)).
Proof.
  apply (escaping_exception_origin default_config "fetch"
           (failing_then 1 (Exc value_error)) value_error
           (snd second_attempt_crashes)).
  - reflexivity.
  - discriminate.
Defined.

(** X3 at the run of [steep_config]: the [OverflowError] of line 61. *)
Lemma overflow_leaves_the_wrapper :
  fst (run steep_config "fetch" always_failing) = Exc ExOverflowError /\
  invocations (snd (run steep_config "fetch" always_failing)) = 3%nat.
Proof. split; reflexivity. Qed.

(** X4 at the default config and an operation that always fails: the
    exhausted case. *)
Lemma api_error_cases_witness :
  exists a t,
    run default_config "fetch" always_failing = (Exc (ExAPIError a), t) /\
    reason a = exhausted /\ attempt_count a = 3%Z /\
    invocations t = 3%nat /\ original_error a = Some rate_exceeded.
Proof.
  eexists _, _. split; [reflexivity|].
  destruct (api_error_cases default_config "fetch" always_failing _ _
              ltac:(intros i a' H; discriminate H) eq_refl)
    as [(H & _) | (H1 & H2 & _)].
  - discriminate H.
  - repeat split.
Defined.

(** X8 at the config of the specification's example. *)
Lemma sleeps_without_jitter_follow_schedule_witness :
  sleeps (snd (run plain_config "fetch" always_failing))
  = map (fun k => backoff_delay plain_config (Z.of_nat k))
        (seq 0 (invocations (snd (run plain_config "fetch" always_failing)) - 1)).
Proof.
  apply (sleeps_without_jitter_follow_schedule plain_config "fetch" always_failing).
  reflexivity.
Defined.

(** X9 at two random sources. *)
Lemma run_without_jitter_ignores_entropy_witness :
  run plain_config "fetch" always_failing
  = run plain_config "fetch" always_failing_other_draws.
Proof.
  apply (run_without_jitter_ignores_entropy plain_config "fetch").
  - reflexivity.
  - reflexivity.
Defined.

(** X10 at eight attempts capped at 30 seconds: at most 210 seconds. *)
Lemma total_sleep_bounded_witness :
  total_sleep (snd (run patient_config "fetch" always_failing))
  <= inject_Z (max_attempts patient_config - 1) * max_delay patient_config.
Proof.
  apply (total_sleep_bounded patient_config "fetch" always_failing);
    discriminate.
Defined.

(** X13 at the default delays. *)
Lemma backoff_delay_starts_at_base_witness :
  backoff_delay default_config 0 == base_delay default_config /\
  base_delay default_config <= backoff_delay default_config 3.
Proof.
  apply (backoff_delay_starts_at_base default_config 3); discriminate.
Defined.

(** X14 at [rate_exceeded] in other letters. *)
Lemma classification_ignores_case_witness :
  _is_retryable_error rate_exceeded = _is_retryable_error rate_exceeded_shouting.
Proof.
  apply (classification_ignores_case rate_exceeded rate_exceeded_shouting);
    reflexivity.
Defined.

(** X15 at [rate_exceeded] with text around it. *)
Lemma classification_survives_context_witness :
  _is_retryable_error rate_exceeded_verbose = Val true.
Proof.
  apply (classification_survives_context rate_exceeded rate_exceeded_verbose).
  - intros ec [= <-]. eexists. split; [reflexivity|].
    now exists "<"%string, ": 3>"%string.
  - now exists "Request failed: "%string, " (retry later)"%string.
  - reflexivity.
Defined.


End FurtherExamples.
